(** * Verification of the journalled VSFS image tool (src/journal.c)

    A shallow embedding of [create_journal] and [install_journal].

    - The backing image is a byte array [img : Z -> Z] together with its
      current file length [len]; every [pwrite] is also recorded in a trace
      of events so that the order of writes can be stated.
    - Structs are serialised little-endian with the layout the C compiler
      gives them on the target (no padding is needed in any of them).
    - [pread] of [n] bytes at [pos] that does not get [n] bytes back makes the
      program [die]; a [pwrite] always transfers all its bytes.
    - [create_journal] is a straight-line program in a small state/exit monad;
      [install_journal] is written as a step function on an explicit program
      counter, one constructor per loop head of the C code. *)

From Stdlib Require Import ZArith List Bool Lia.
Import ListNotations.
Open Scope Z_scope.

(** ** Layout constants (the #defines of journal.c) *)

Definition JOURNAL_MAGIC : Z := 1246907980.   (* 0x4A524E4C *)
Definition BLOCK_SIZE : Z := 4096.
Definition INODE_SIZE : Z := 128.
Definition JOURNAL_BLOCK_IDX : Z := 1.
Definition JOURNAL_BLOCKS : Z := 16.
Definition INODE_BLOCKS : Z := 2.
Definition DATA_BLOCKS : Z := 64.
Definition INODE_BMAP_IDX : Z := JOURNAL_BLOCK_IDX + JOURNAL_BLOCKS.
Definition DATA_BMAP_IDX : Z := INODE_BMAP_IDX + 1.
Definition INODE_START_IDX : Z := DATA_BMAP_IDX + 1.
Definition DATA_START_IDX : Z := INODE_START_IDX + INODE_BLOCKS.
Definition TOTAL_BLOCKS : Z := DATA_START_IDX + DATA_BLOCKS.
Definition REC_DATA : Z := 1.
Definition REC_COMMIT : Z := 2.

(** [sizeof] of the on-disk structs. *)
Definition SIZEOF_DIRENT : Z := 32.          (* uint32 inode; char name[28] *)
Definition SIZEOF_JH : Z := 8.               (* magic, nbytes_used *)
Definition SIZEOF_RH : Z := 4.               (* uint16 type, uint16 size *)
Definition SIZEOF_DR : Z := 4 + 4 + 4096.    (* hdr, block_no, data *)
Definition SIZEOF_CR : Z := 4.               (* hdr *)

(** Byte offset of the journal region in the image, and its size. *)
Definition JOURNAL_BASE : Z := JOURNAL_BLOCK_IDX * BLOCK_SIZE.
Definition JOURNAL_BYTES : Z := JOURNAL_BLOCKS * BLOCK_SIZE.

Definition wrap32 (x : Z) : Z := x mod 2 ^ 32.

(** ** Byte buffers *)

(** A buffer is a byte-indexed function; only the indices the C buffer has
    are meaningful. *)
Definition buf := Z -> Z.

(** Overwrite [n] bytes of [b] at [off] by [src 0 .. src (n-1)] (memcpy). *)
Definition upd (b : buf) (off n : Z) (src : buf) : buf :=
  fun i => if (off <=? i) && (i <? off + n) then src (i - off) else b i.

Definition byte_at (b : buf) (o : Z) : Z := b o mod 256.
Definition get_le16 (b : buf) (o : Z) : Z := byte_at b o + 256 * byte_at b (o + 1).
Definition get_le32 (b : buf) (o : Z) : Z :=
  get_le16 b o + 65536 * get_le16 b (o + 2).

(** Little-endian bytes of [v]. *)
Definition le_bytes (v : Z) : buf := fun i => Z.land (Z.shiftr v (8 * i)) 255.
Definition set_le16 (b : buf) (o v : Z) : buf := upd b o 2 (le_bytes v).
Definition set_le32 (b : buf) (o v : Z) : buf := upd b o 4 (le_bytes v).

Definition zero_buf : buf := fun _ => 0.

(** ** The image and the system calls *)

Inductive event : Type :=
| EWrite (pos n : Z) (data : buf)
| EFsync.

Record world : Type := mkW { img : buf; len : Z; trace : list event }.

Definition pwrite_w (w : world) (pos n : Z) (data : buf) : world :=
  mkW (upd (img w) pos n data)
      (if 0 <? n then Z.max (len w) (pos + n) else len w)
      (trace w ++ [EWrite pos n data]).

Definition fsync_w (w : world) : world := mkW (img w) (len w) (trace w ++ [EFsync]).

(** Outcome of a program: it returns, or it calls [die] (exit(EXIT_FAILURE));
    the image keeps whatever was written before. *)
Inductive res (A : Type) : Type :=
| Ret (a : A) (w : world)
| Died (w : world).
Arguments Ret {A} a w.
Arguments Died {A} w.

Definition M (A : Type) : Type := world -> res A.

Definition ret {A} (a : A) : M A := fun w => Ret a w.
Definition bind {A B} (m : M A) (k : A -> M B) : M B :=
  fun w => match m w with Ret a w' => k a w' | Died w' => Died w' end.

Notation "x <- m ;; k" := (bind m (fun x => k))
  (at level 61, m at next level, right associativity).
Notation "m ;;; k" := (bind m (fun _ => k))
  (at level 61, right associativity).

Definition final_world {A} (r : res A) : world :=
  match r with Ret _ w => w | Died w => w end.

(** [pread]: a transfer of [n] bytes succeeds iff the file has them. *)
Definition preads (w : world) (pos n : Z) : bool := (n =? 0) || (pos + n <=? len w).

Definition sys_pread (pos n : Z) : M buf :=
  fun w => if preads w pos n then Ret (fun i => img w (pos + i)) w else Died w.

Definition sys_pwrite (pos n : Z) (data : buf) : M unit :=
  fun w => Ret tt (pwrite_w w pos n data).

Definition sys_fsync : M unit := fun w => Ret tt (fsync_w w).

(** [write_block] / [read_block] / [journal_write] / [journal_read]: each dies
    on a short transfer, which for [pread] is [preads] failing. *)
Definition write_block (block_no : Z) (b : buf) : M unit :=
  sys_pwrite (block_no * BLOCK_SIZE) BLOCK_SIZE b.
Definition read_block (block_no : Z) : M buf :=
  sys_pread (block_no * BLOCK_SIZE) BLOCK_SIZE.
Definition journal_write (offset : Z) (b : buf) (size : Z) : M unit :=
  sys_pwrite (JOURNAL_BASE + offset) size b.
Definition journal_read (offset size : Z) : M buf :=
  sys_pread (JOURNAL_BASE + offset) size.

(** Block [b] of the image as [read_block] returns it. *)
Definition block_img (w : world) (block_no : Z) : buf :=
  fun i => img w (block_no * BLOCK_SIZE + i).

(** ** Allocators *)

(** [set_bitmap]: [bitmap[index/8] |= 1 << (index%8)]. *)
Definition set_bitmap (bitmap : buf) (index : Z) : buf :=
  upd bitmap (index / 8) 1
      (fun _ => Z.lor (bitmap (index / 8)) (Z.shiftl 1 (index mod 8))).

Fixpoint free_inode_from (bmap : buf) (i : Z) (fuel : nat) : Z :=
  match fuel with
  | O => -1
  | S f =>
      if Z.land (bmap (i / 8)) (Z.shiftl 1 (i mod 8)) =? 0 then i
      else free_inode_from bmap (i + 1) f
  end.

(** [free_inode]: first clear bit among [max_inodes = 2 * (4096/128) = 64]. *)
Definition free_inode (bmap : buf) : Z :=
  free_inode_from bmap 0 (Z.to_nat (INODE_BLOCKS * (BLOCK_SIZE / INODE_SIZE))).

Fixpoint free_dirent_from (d : buf) (i : Z) (fuel : nat) : Z :=
  match fuel with
  | O => -1
  | S f =>
      if d (i * SIZEOF_DIRENT + 4) =? 0 then i
      else free_dirent_from d (i + 1) f
  end.

(** [free_dirent]: first slot among [4096 / 32 = 128] whose [name[0]] is 0. *)
Definition free_dirent (d : buf) : Z :=
  free_dirent_from d 0 (Z.to_nat (BLOCK_SIZE / SIZEOF_DIRENT)).

(** ** The file-creation transaction *)

(** [strncpy(dst, src, n)]: the [n] bytes written to [dst]; copying stops at
    the first NUL of [src] and the rest is NUL-filled. *)
Fixpoint strncpy_bytes (src : list Z) (n : nat) : list Z :=
  match n with
  | O => []
  | S n' =>
      match src with
      | [] => 0 :: strncpy_bytes [] n'
      | c :: s => if c =? 0 then 0 :: strncpy_bytes [] n' else c :: strncpy_bytes s n'
      end
  end.

Definition list_buf (l : list Z) : buf := fun i => nth (Z.to_nat i) l 0.

(** [d[slot].inode = inode_idx; strncpy(d[slot].name, file_name, 27);] *)
Definition set_dirent (d : buf) (slot inode_idx : Z) (file_name : list Z) : buf :=
  let d := set_le32 d (slot * SIZEOF_DIRENT) (wrap32 inode_idx) in
  upd d (slot * SIZEOF_DIRENT + 4) 27 (list_buf (strncpy_bytes file_name 27)).

(** [memset(new_ino, 0, 128); type = 1; links = 1; ctime = mtime = now]. *)
Definition init_inode (blk : buf) (k now : Z) : buf :=
  let o := k * INODE_SIZE in
  let blk := upd blk o INODE_SIZE zero_buf in
  let blk := set_le16 blk o 1 in
  let blk := set_le16 blk (o + 2) 1 in
  let blk := set_le32 blk (o + 44) (wrap32 now) in
  set_le32 blk (o + 40) (wrap32 now).

(** [root_ino = &((struct inode * )ino_blk)[0];
     needed = (slot + 1) * sizeof(struct dirent);
     if (root_ino->size < needed) root_ino->size = needed;] *)
Definition grow_root (ino_blk : buf) (slot : Z) : buf :=
  let needed := wrap32 ((slot + 1) * SIZEOF_DIRENT) in
  if get_le32 ino_blk 4 <? needed then set_le32 ino_blk 4 needed else ino_blk.

Record journal_header : Type := mkJH { jmagic : Z; nbytes_used : Z }.

Definition decode_jh (b : buf) : journal_header := mkJH (get_le32 b 0) (get_le32 b 4).
Definition jh_bytes (jh : journal_header) : buf :=
  upd (le_bytes (jmagic jh)) 4 4 (le_bytes (nbytes_used jh)).

Definition rh_bytes (type size : Z) : buf := upd (le_bytes type) 2 2 (le_bytes size).

(** A [struct data_record] as it is laid out in memory. *)
Definition data_record_bytes (block_no : Z) (data : buf) : buf :=
  upd (upd (rh_bytes REC_DATA SIZEOF_DR) 4 4 (le_bytes block_no)) 8 BLOCK_SIZE data.

Definition commit_record_bytes : buf := rh_bytes REC_COMMIT SIZEOF_CR.

(** The body of [for (i = 0; i < 4; i++)]: one data record per target. *)
Fixpoint log_blocks (off : Z) (tb : list (Z * buf)) : M Z :=
  match tb with
  | [] => ret off
  | (t, b) :: tb' =>
      journal_write off (data_record_bytes t b) SIZEOF_DR ;;;
      log_blocks (wrap32 (off + SIZEOF_DR)) tb'
  end.

(** [create_journal(file_name)], with [now] the value of [time(NULL)]. *)
Definition create_journal (file_name : list Z) (now : Z) : M unit :=
  ibmap <- read_block INODE_BMAP_IDX ;;
  dbmap <- read_block DATA_BMAP_IDX ;;
  root_data <- read_block DATA_START_IDX ;;
  let inode_idx := free_inode ibmap in
  let slot := free_dirent root_data in
  if (inode_idx <? 0) || (slot <? 0) then ret tt else
  let ibmap := set_bitmap ibmap inode_idx in
  let root_data := set_dirent root_data slot inode_idx file_name in
  let iblk_no := INODE_START_IDX + inode_idx / (BLOCK_SIZE / INODE_SIZE) in
  ino_blk <- read_block iblk_no ;;
  let ino_blk := init_inode ino_blk (inode_idx mod (BLOCK_SIZE / INODE_SIZE)) now in
  let ino_blk := grow_root ino_blk slot in
  jhb <- journal_read 0 SIZEOF_JH ;;
  let jh := decode_jh jhb in
  let jh := if negb (jmagic jh =? JOURNAL_MAGIC) then mkJH JOURNAL_MAGIC SIZEOF_JH else jh in
  let off := nbytes_used jh in
  off <- log_blocks off [(INODE_BMAP_IDX, ibmap); (DATA_BMAP_IDX, dbmap);
                         (DATA_START_IDX, root_data); (iblk_no, ino_blk)] ;;
  journal_write off commit_record_bytes SIZEOF_CR ;;;
  let off := wrap32 (off + SIZEOF_CR) in
  journal_write 0 (jh_bytes (mkJH (jmagic jh) off)) SIZEOF_JH ;;;
  sys_fsync.

(** ** Journal installation *)

(** Program points of [install_journal]: one per loop head.
    - [IOuter off committed]: head of the outer [while];
    - [IScan tx_start tx_off committed]: head of the commit-search loop;
    - [IApply apply_off tx_off committed]: head of the apply loop;
    - [IReset committed]: after the outer loop (header reset and fsync);
    - [IDone committed]: returned; [IDied]: exited through [die];
    - [IUndef]: [journal_read(fd, apply_off, &dr, rh.size)] stored more than
      [sizeof(dr)] = 4104 bytes into [dr]: the behaviour is undefined. *)
Inductive ipc : Type :=
| IStart
| IOuter (off committed : Z)
| IScan (tx_start tx_off committed : Z)
| IApply (apply_off tx_off committed : Z)
| IReset (committed : Z)
| IDone (committed : Z)
| IDied
| IUndef.

Record ist : Type := mkI { pc : ipc; ijh : journal_header; iw : world }.

(** Fields of the record header at journal offset [off]. *)
Definition rec_type_at (w : world) (off : Z) : Z := get_le16 (img w) (JOURNAL_BASE + off).
Definition rec_size_at (w : world) (off : Z) : Z := get_le16 (img w) (JOURNAL_BASE + off + 2).
Definition rec_block_at (w : world) (off : Z) : Z := get_le32 (img w) (JOURNAL_BASE + off + 4).

Section Install.

(** [max_commits] is the cap ([-1]: none); [stale] is the content the
    uninitialised [struct data_record dr] has before [journal_read] fills its
    first [rh.size] bytes. *)
Variable max_commits : Z.
Variable stale : buf.

Definition step (s : ist) : ist :=
  let w := iw s in
  let jh := ijh s in
  let used := nbytes_used jh in
  match pc s with
  | IStart =>
      if preads w JOURNAL_BASE SIZEOF_JH then
        let jh := decode_jh (fun i => img w (JOURNAL_BASE + i)) in
        if negb (jmagic jh =? JOURNAL_MAGIC) || (nbytes_used jh <=? SIZEOF_JH)
        then mkI (IDone 0) jh w
        else mkI (IOuter SIZEOF_JH 0) jh w
      else mkI IDied jh w
  | IOuter off committed =>
      if (off <? used) && ((max_commits <? 0) || (committed <? max_commits))
      then mkI (IScan off off committed) jh w
      else mkI (IReset committed) jh w
  | IScan tx_start tx_off committed =>
      if tx_off <? used then
        if preads w (JOURNAL_BASE + tx_off) SIZEOF_RH then
          let tx_off' := wrap32 (tx_off + rec_size_at w tx_off) in
          if rec_type_at w tx_off =? REC_COMMIT
          then mkI (IApply tx_start tx_off' committed) jh w
          else mkI (IScan tx_start tx_off' committed) jh w
        else mkI IDied jh w
      else mkI (IReset committed) jh w          (* !has_commit: break *)
  | IApply apply_off tx_off committed =>
      if apply_off <? tx_off then
        if preads w (JOURNAL_BASE + apply_off) SIZEOF_RH then
          let size := rec_size_at w apply_off in
          let next := wrap32 (apply_off + size) in
          if rec_type_at w apply_off =? REC_DATA then
            (* [pread] stores min(size, bytes left in the file) bytes *)
            if (SIZEOF_DR <? size) && (JOURNAL_BASE + apply_off + SIZEOF_DR <? len w)
            then mkI IUndef jh w
            else if preads w (JOURNAL_BASE + apply_off) size then
              let dr := upd stale 0 size (fun i => img w (JOURNAL_BASE + apply_off + i)) in
              let w' := pwrite_w w (get_le32 dr 4 * BLOCK_SIZE) BLOCK_SIZE
                                 (fun i => dr (8 + i)) in
              mkI (IApply next tx_off committed) jh w'
            else mkI IDied jh w
          else mkI (IApply next tx_off committed) jh w
        else mkI IDied jh w
      else mkI (IOuter tx_off (committed + 1)) jh w
  | IReset committed =>
      let jh := mkJH (jmagic jh) SIZEOF_JH in
      mkI (IDone committed) jh
          (fsync_w (pwrite_w w JOURNAL_BASE SIZEOF_JH (jh_bytes jh)))
  | IDone c => s
  | IDied => s
  | IUndef => s
  end.

Fixpoint run (n : nat) (s : ist) : ist :=
  match n with O => s | S n' => run n' (step s) end.

End Install.

Definition install_init (w : world) : ist := mkI IStart (mkJH 0 0) w.

(** [install_journal(max_commits)] given enough steps. *)
Definition install_journal (max_commits : Z) (fuel : nat) (w : world) : ist :=
  run max_commits zero_buf fuel (install_init w).

Definition is_stop (p : ipc) : bool :=
  match p with IDone _ | IDied | IUndef => true | _ => false end.

(** Header fields of the image. *)
Definition img_jh (w : world) : journal_header :=
  decode_jh (fun i => img w (JOURNAL_BASE + i)).

(** A formatted image: all blocks zero. *)
Definition zero_world : world := mkW zero_buf (TOTAL_BLOCKS * BLOCK_SIZE) [].

Definition create_w (name : list Z) (now : Z) (w : world) : world :=
  final_world (create_journal name now w).
Definition install_w (w : world) : world := iw (install_journal (-1) 200 w).

(** Offset at which [create_journal] starts appending: the header's
    [nbytes_used], or just past the header when the magic is wrong. *)
Definition start_off (w : world) : Z :=
  if jmagic (img_jh w) =? JOURNAL_MAGIC then nbytes_used (img_jh w) else SIZEOF_JH.

Definition ev_len (e : event) : Z := match e with EWrite _ n _ => n | EFsync => 0 end.

(** ** Lemmas on the create transaction *)

Ltac unfold_layout :=
  unfold JOURNAL_BASE, JOURNAL_BYTES, TOTAL_BLOCKS, DATA_START_IDX, INODE_START_IDX,
    DATA_BMAP_IDX, INODE_BMAP_IDX, JOURNAL_BLOCK_IDX, JOURNAL_BLOCKS, INODE_BLOCKS,
    DATA_BLOCKS, BLOCK_SIZE, INODE_SIZE, SIZEOF_JH, SIZEOF_RH, SIZEOF_DR, SIZEOF_CR,
    SIZEOF_DIRENT in *.

Lemma preads_true w pos n : 0 <= n -> pos + n <= len w -> preads w pos n = true.
Proof. intros. unfold preads. apply orb_true_iff. right. apply Z.leb_le. lia. Qed.

Lemma free_inode_from_range bmap i f :
  free_inode_from bmap i f = -1 \/ (i <= free_inode_from bmap i f < i + Z.of_nat f).
Proof.
  revert i. induction f as [|f IH]; intros i; simpl; [now left|].
  destruct (_ =? 0); [right; lia|].
  destruct (IH (i + 1)) as [H|H]; [now left|right; lia].
Qed.

Lemma free_inode_range bmap : 0 <= free_inode bmap -> free_inode bmap < 64.
Proof.
  unfold free_inode. destruct (free_inode_from_range bmap 0 (Z.to_nat (INODE_BLOCKS * (BLOCK_SIZE / INODE_SIZE)))) as [H|H];
  rewrite ?H; simpl in *; lia.
Qed.

Lemma create_journal_writes name now w :
  TOTAL_BLOCKS * BLOCK_SIZE <= len w ->
  0 <= free_inode (block_img w INODE_BMAP_IDX) ->
  0 <= free_dirent (block_img w DATA_START_IDX) ->
  let i := free_inode (block_img w INODE_BMAP_IDX) in
  let s := free_dirent (block_img w DATA_START_IDX) in
  let iblk := INODE_START_IDX + i / (BLOCK_SIZE / INODE_SIZE) in
  let o0 := start_off w in
  let o1 := wrap32 (o0 + SIZEOF_DR) in
  let o2 := wrap32 (o1 + SIZEOF_DR) in
  let o3 := wrap32 (o2 + SIZEOF_DR) in
  let o4 := wrap32 (o3 + SIZEOF_DR) in
  let o5 := wrap32 (o4 + SIZEOF_CR) in
  exists w', create_journal name now w = Ret tt w' /\
  trace w' = trace w ++
    [EWrite (JOURNAL_BASE + o0) SIZEOF_DR
        (data_record_bytes INODE_BMAP_IDX (set_bitmap (block_img w INODE_BMAP_IDX) i));
     EWrite (JOURNAL_BASE + o1) SIZEOF_DR
        (data_record_bytes DATA_BMAP_IDX (block_img w DATA_BMAP_IDX));
     EWrite (JOURNAL_BASE + o2) SIZEOF_DR
        (data_record_bytes DATA_START_IDX (set_dirent (block_img w DATA_START_IDX) s i name));
     EWrite (JOURNAL_BASE + o3) SIZEOF_DR
        (data_record_bytes iblk
           (grow_root (init_inode (block_img w iblk) (i mod (BLOCK_SIZE / INODE_SIZE)) now) s));
     EWrite (JOURNAL_BASE + o4) SIZEOF_CR commit_record_bytes;
     EWrite JOURNAL_BASE SIZEOF_JH (jh_bytes (mkJH JOURNAL_MAGIC o5));
     EFsync].
Proof.
  intros Hlen Hi Hs i s iblk o0 o1 o2 o3 o4 o5.
  assert (Hi64 : i < 64) by (apply free_inode_range; exact Hi).
  assert (Hiblk : 19 <= iblk <= 20).
  { unfold iblk, INODE_START_IDX, DATA_BMAP_IDX, INODE_BMAP_IDX, JOURNAL_BLOCK_IDX,
      JOURNAL_BLOCKS, BLOCK_SIZE, INODE_SIZE.
    change (4096 / 128) with 32.
    assert (0 <= i / 32) by (apply Z.div_pos; lia).
    assert (i / 32 < 2) by (apply Z.div_lt_upper_bound; lia).
    lia. }
  unfold create_journal, bind, read_block, journal_read, sys_pread.
  do 3 (rewrite preads_true by (unfold_layout; lia); cbv beta iota).
  fold (block_img w INODE_BMAP_IDX) (block_img w DATA_BMAP_IDX) (block_img w DATA_START_IDX).
  fold i s.
  replace ((i <? 0) || (s <? 0)) with false by (symmetry; apply orb_false_iff; split; apply Z.ltb_ge; lia).
  cbv beta iota. fold iblk.
  do 2 (rewrite preads_true by (unfold_layout; lia); cbv beta iota).
  fold (block_img w iblk).
  change (decode_jh (fun i0 => img w (JOURNAL_BASE + 0 + i0))) with (img_jh w).
  unfold o5, o4, o3, o2, o1, o0, start_off.
  destruct (jmagic (img_jh w) =? JOURNAL_MAGIC) eqn:Hm; cbn [negb jmagic nbytes_used].
  - apply Z.eqb_eq in Hm. rewrite Hm.
    eexists; split; [reflexivity|]. simpl. rewrite <- !app_assoc. reflexivity.
  - eexists; split; [reflexivity|]. simpl. rewrite <- !app_assoc. reflexivity.
Qed.

Lemma strncpy_bytes_nth name n k :
  Forall (fun c => c <> 0) name -> (k < n)%nat ->
  nth k (strncpy_bytes name n) 0 = if (k <? length name)%nat then nth k name 0 else 0.
Proof.
  revert name k. induction n as [|n IH]; intros name k Hn Hk; [lia|].
  destruct name as [|c name]; simpl.
  - destruct k as [|k]; [reflexivity|]. simpl. rewrite IH by (auto || lia). reflexivity.
  - inversion Hn as [|? ? Hc Hn']; subst.
    destruct (Z.eqb_spec c 0) as [E|_]; [contradiction|].
    destruct k as [|k]; [reflexivity|]. simpl. rewrite IH by (auto || lia). reflexivity.
Qed.

Definition ev_data (e : event) : buf := match e with EWrite _ _ d => d | EFsync => zero_buf end.

(** Images used as concrete inputs. *)

(** Formatted image whose inode bitmap has all 64 inodes allocated. *)
Definition full_ibmap_world : world :=
  mkW (fun a => if (INODE_BMAP_IDX * BLOCK_SIZE <=? a) && (a <? INODE_BMAP_IDX * BLOCK_SIZE + 8)
                then 255 else 0)
      (TOTAL_BLOCKS * BLOCK_SIZE) [].

(** [n] rounds of [journal create <name>] followed by [journal install]. *)
Fixpoint create_install_rounds (n : nat) (w : world) : world :=
  match n with
  | O => w
  | S n' => create_install_rounds n' (install_w (create_w [65 + Z.of_nat n] 0 w))
  end.

Definition name28 : list Z := repeat 97 28.

(** ** Claims on [create_journal] *)

(** C5: when the inode allocator or the dirent allocator is exhausted,
    [create_journal] leaves the image exactly as it was: no journal write,
    no header change, no block change. *)
Theorem create_exhausted_writes_nothing name now w :
  free_inode (block_img w INODE_BMAP_IDX) = -1 \/
  free_dirent (block_img w DATA_START_IDX) = -1 ->
  final_world (create_journal name now w) = w.
Proof.
  intros H. unfold create_journal, bind, read_block, sys_pread.
  destruct (preads w (INODE_BMAP_IDX * BLOCK_SIZE) BLOCK_SIZE); [|reflexivity].
  destruct (preads w (DATA_BMAP_IDX * BLOCK_SIZE) BLOCK_SIZE); [|reflexivity].
  destruct (preads w (DATA_START_IDX * BLOCK_SIZE) BLOCK_SIZE); [|reflexivity].
  fold (block_img w INODE_BMAP_IDX) (block_img w DATA_START_IDX).
  destruct H as [H|H]; rewrite H; [reflexivity|].
  rewrite orb_true_r. reflexivity.
Qed.

Lemma create_exhausted_writes_nothing_witness :
  free_inode (block_img full_ibmap_world INODE_BMAP_IDX) = -1 /\
  final_world (create_journal [97] 0 full_ibmap_world) = full_ibmap_world.
Proof.
  assert (H : free_inode (block_img full_ibmap_world INODE_BMAP_IDX) = -1)
    by (vm_compute; reflexivity).
  split; [exact H|].
  apply create_exhausted_writes_nothing. left. exact H.
Defined.




(** C10 (as stated): a 28-byte name does not fill the 28-byte name field;
    its 28th byte is not stored ([strncpy] copies 27 bytes), neither in the
    logged directory block nor on disk after install. *)
Lemma create_name_field_cex :
  nth 27 name28 0 = 97 /\
  ev_data (nth 2 (trace (create_w name28 0 zero_world)) EFsync) (8 + 4 + 27) = 0 /\
  pc (install_journal (-1) 200 (create_w name28 0 zero_world)) = IDone 1 /\
  img (install_w (create_w name28 0 zero_world)) (DATA_START_IDX * BLOCK_SIZE + 4 + 27) = 0.
Proof. vm_compute. repeat split. Qed.

(** C10 (amended): the first 27 bytes of the new entry's name field, in the
    directory block that create logs, are the input's bytes (a C string, no
    NUL inside) truncated to 27 and NUL-padded; the field's last byte is not
    written by create: it keeps the value it had in the directory block read
    from the image. *)
Theorem create_dirent_name name now w :
  TOTAL_BLOCKS * BLOCK_SIZE <= len w ->
  0 <= free_inode (block_img w INODE_BMAP_IDX) ->
  0 <= free_dirent (block_img w DATA_START_IDX) ->
  Forall (fun c => c <> 0) name ->
  exists w' appended d, create_journal name now w = Ret tt w' /\
    trace w' = trace w ++ appended /\
    (exists p, In (EWrite p SIZEOF_DR (data_record_bytes DATA_START_IDX d)) appended) /\
    (forall k, 0 <= k < 27 ->
      d (free_dirent (block_img w DATA_START_IDX) * SIZEOF_DIRENT + 4 + k) =
      if k <? Z.of_nat (length name) then nth (Z.to_nat k) name 0 else 0) /\
    d (free_dirent (block_img w DATA_START_IDX) * SIZEOF_DIRENT + 4 + 27) =
      block_img w DATA_START_IDX (free_dirent (block_img w DATA_START_IDX) * SIZEOF_DIRENT + 4 + 27).
Proof.
  intros Hlen Hi Hs Hn.
  destruct (create_journal_writes name now w Hlen Hi Hs) as [w' [Hc Ht]].
  eexists w', _, _. split; [exact Hc|]. split; [exact Ht|]. split.
  - eexists. simpl. right. right. left. reflexivity.
  - split.
    2: { unfold set_dirent, set_le32, upd.
         set (s := free_dirent (block_img w DATA_START_IDX)).
         unfold SIZEOF_DIRENT.
         replace ((s * 32 + 4 <=? s * 32 + 4 + 27) && (s * 32 + 4 + 27 <? s * 32 + 4 + 27))
           with false by (rewrite Z.ltb_irrefl, andb_false_r; reflexivity).
         replace ((s * 32 <=? s * 32 + 4 + 27) && (s * 32 + 4 + 27 <? s * 32 + 4))
           with false by (symmetry; apply andb_false_iff; right; apply Z.ltb_ge; lia).
         reflexivity. }
    intros k Hk. unfold set_dirent, upd.
    set (s := free_dirent (block_img w DATA_START_IDX)).
    replace ((s * SIZEOF_DIRENT + 4 <=? s * SIZEOF_DIRENT + 4 + k) &&
             (s * SIZEOF_DIRENT + 4 + k <? s * SIZEOF_DIRENT + 4 + 27)) with true
      by (symmetry; apply andb_true_iff; split; [apply Z.leb_le|apply Z.ltb_lt]; lia).
    unfold list_buf.
    replace (s * SIZEOF_DIRENT + 4 + k - (s * SIZEOF_DIRENT + 4)) with k by lia.
    rewrite strncpy_bytes_nth by (auto; lia).
    destruct (Nat.ltb_spec (Z.to_nat k) (length name));
      destruct (Z.ltb_spec k (Z.of_nat (length name))); auto; lia.
Qed.

Lemma create_dirent_name_witness :
  TOTAL_BLOCKS * BLOCK_SIZE <= len zero_world /\
  0 <= free_inode (block_img zero_world INODE_BMAP_IDX) /\
  0 <= free_dirent (block_img zero_world DATA_START_IDX) /\
  Forall (fun c => c <> 0) [97; 46; 116] /\
  exists w', create_journal [97; 46; 116] 0 zero_world = Ret tt w'.
Proof.
  assert (H1 : TOTAL_BLOCKS * BLOCK_SIZE <= len zero_world) by (vm_compute; discriminate).
  assert (H2 : 0 <= free_inode (block_img zero_world INODE_BMAP_IDX)) by (vm_compute; discriminate).
  assert (H3 : 0 <= free_dirent (block_img zero_world DATA_START_IDX)) by (vm_compute; discriminate).
  assert (H4 : Forall (fun c => c <> 0) [97; 46; 116]) by (repeat constructor; discriminate).
  split; [exact H1|]. split; [exact H2|]. split; [exact H3|]. split; [exact H4|].
  destruct (create_dirent_name [97; 46; 116] 0 zero_world H1 H2 H3 H4) as [w' [_ [_ [Hw _]]]].
  exists w'. exact Hw.
Defined.

(** C2 (code defect): four creates without an install run the journal past
    its 16 blocks (65536 bytes): bytes-used becomes 65688 and the fourth
    create's commit record lands in block 17, the inode bitmap, at offset 148. *)
Theorem create_overflows_journal :
  let w4 := create_w [100] 0 (create_w [99] 0 (create_w [98] 0 (create_w [97] 0 zero_world))) in
  nbytes_used (img_jh w4) = 65688 /\ JOURNAL_BYTES < 65688 /\
  img zero_world (INODE_BMAP_IDX * BLOCK_SIZE + 148) = 0 /\
  img w4 (INODE_BMAP_IDX * BLOCK_SIZE + 148) = REC_COMMIT.
Proof. vm_compute. repeat split. Qed.

(** C3 (code defect): after 32 rounds of create and install, inodes 0-31 and
    directory slots 0-31 are used and the root inode's size is 1024. The next
    create allocates inode 32 and slot 32, but [&ino_blk[0]] is then inode 32
    of table block 20: inode 32 gets size 1056 and the root inode keeps 1024. *)
Theorem root_size_not_grown_for_inode_32 :
  let w32 := create_install_rounds 32 zero_world in
  let w33 := install_w (create_w [102] 0 w32) in
  free_inode (block_img w32 INODE_BMAP_IDX) = 32 /\
  free_dirent (block_img w32 DATA_START_IDX) = 32 /\
  get_le32 (block_img w32 INODE_START_IDX) 4 = 1024 /\
  pc (install_journal (-1) 200 (create_w [102] 0 w32)) = IDone 1 /\
  img w33 (DATA_START_IDX * BLOCK_SIZE + 32 * SIZEOF_DIRENT + 4) = 102 /\
  get_le32 (block_img w33 INODE_START_IDX) 4 = 1024 /\
  get_le32 (block_img w33 (INODE_START_IDX + 1)) 4 = 1056.
Proof. vm_compute. repeat split. Qed.

(** C9 (code defect): [journal create ""] sets inode 0's bitmap bit but the
    new directory entry has [name[0] = 0], so after install slot 0 is still
    free and the next create gets it again. *)
Theorem create_empty_name_entry_not_live :
  let w1 := install_w (create_w [] 0 zero_world) in
  pc (install_journal (-1) 200 (create_w [] 0 zero_world)) = IDone 1 /\
  Z.land (img w1 (INODE_BMAP_IDX * BLOCK_SIZE)) 1 = 1 /\
  img w1 (DATA_START_IDX * BLOCK_SIZE + 4) = 0 /\
  free_dirent (block_img w1 DATA_START_IDX) = 0 /\
  free_inode (block_img w1 INODE_BMAP_IDX) = 1.
Proof. vm_compute. repeat split. Qed.

(** ** Claims on [install_journal] *)

(** The commit search of one transaction, started at [tx_off], reads record
    headers up to [used] without meeting a commit record. *)
Inductive scan_nocommit (w : world) (used : Z) : Z -> Prop :=
| snc_end tx : used <= tx -> scan_nocommit w used tx
| snc_step tx :
    tx < used ->
    preads w (JOURNAL_BASE + tx) SIZEOF_RH = true ->
    rec_type_at w tx <> REC_COMMIT ->
    scan_nocommit w used (wrap32 (tx + rec_size_at w tx)) ->
    scan_nocommit w used tx.

(** The image after the final header reset and fsync of [install_journal]. *)
Definition reset_world (jh : journal_header) (w : world) : world :=
  fsync_w (pwrite_w w JOURNAL_BASE SIZEOF_JH (jh_bytes (mkJH (jmagic jh) SIZEOF_JH))).

Lemma run_S cap stale n s : run cap stale (S n) s = run cap stale n (step cap stale s).
Proof. reflexivity. Qed.

Lemma run_add cap stale n m s :
  run cap stale (n + m) s = run cap stale m (run cap stale n s).
Proof. revert s. induction n as [|n IH]; intros s; [reflexivity|]. apply IH. Qed.

Lemma scan_nocommit_run cap stale jh w st c tx :
  scan_nocommit w (nbytes_used jh) tx ->
  exists n, run cap stale n (mkI (IScan st tx c) jh w) =
            mkI (IDone c) (mkJH (jmagic jh) SIZEOF_JH) (reset_world jh w).
Proof.
  induction 1 as [tx Hend|tx Hlt Hrd Hty _ [n IH]].
  - exists 2%nat. rewrite run_S.
    assert (E : step cap stale (mkI (IScan st tx c) jh w) = mkI (IReset c) jh w).
    { unfold step; cbn [pc iw ijh].
      replace (tx <? nbytes_used jh) with false by (symmetry; apply Z.ltb_ge; lia).
      reflexivity. }
    rewrite E. reflexivity.
  - exists (S n). rewrite run_S. rewrite <- IH. f_equal.
    unfold step; cbn [pc iw ijh]. rewrite (proj2 (Z.ltb_lt _ _) Hlt), Hrd.
    apply Z.eqb_neq in Hty. rewrite Hty. reflexivity.
Qed.

(** C1: when the commit search from a transaction's start reaches
    bytes-used without a commit record, install applies none of that
    transaction's records and stops: the only remaining effects are the
    header reset and the fsync, and the count of applied transactions is
    unchanged. *)
Theorem install_skips_incomplete_tx cap stale jh w tx_start c :
  scan_nocommit w (nbytes_used jh) tx_start ->
  exists n, run cap stale n (mkI (IScan tx_start tx_start c) jh w) =
            mkI (IDone c) (mkJH (jmagic jh) SIZEOF_JH) (reset_world jh w).
Proof. apply scan_nocommit_run. Qed.

(** A journal holding one data record for block 30 but no commit record:
    a create interrupted before its commit record and the header update. *)
Definition incomplete_world : world :=
  pwrite_w (pwrite_w zero_world JOURNAL_BASE SIZEOF_JH
                     (jh_bytes (mkJH JOURNAL_MAGIC (SIZEOF_JH + SIZEOF_DR))))
           (JOURNAL_BASE + SIZEOF_JH) SIZEOF_DR (data_record_bytes 30 (fun _ => 7)).

Lemma install_skips_incomplete_tx_witness :
  scan_nocommit incomplete_world (nbytes_used (img_jh incomplete_world)) 8 /\
  exists n, run (-1) zero_buf n (mkI (IScan 8 8 0) (img_jh incomplete_world) incomplete_world) =
    mkI (IDone 0) (mkJH (jmagic (img_jh incomplete_world)) SIZEOF_JH)
        (reset_world (img_jh incomplete_world) incomplete_world).
Proof.
  assert (H : scan_nocommit incomplete_world (nbytes_used (img_jh incomplete_world)) 8).
  { apply snc_step; [vm_compute; reflexivity | vm_compute; reflexivity
                    | vm_compute; discriminate |].
    apply snc_end. vm_compute. discriminate. }
  split; [exact H|]. exact (install_skips_incomplete_tx (-1) zero_buf _ _ 8 0 H).
Defined.

(** What is known of an install run started on [w0]: before the header is
    read the image is [w0]; inside the loops the header in hand is [w0]'s and
    valid; on return either nothing was written (invalid magic or no record)
    or the image's header is [JOURNAL_MAGIC, 8]. *)
Definition once_inv (w0 : world) (s : ist) : Prop :=
  match pc s with
  | IStart => iw s = w0
  | IOuter _ _ | IScan _ _ _ | IApply _ _ _ | IReset _ =>
      ijh s = img_jh w0 /\ jmagic (img_jh w0) = JOURNAL_MAGIC /\
      SIZEOF_JH < nbytes_used (img_jh w0)
  | IDone c =>
      (iw s = w0 /\ c = 0 /\ preads w0 JOURNAL_BASE SIZEOF_JH = true /\
       (jmagic (img_jh w0) <> JOURNAL_MAGIC \/ nbytes_used (img_jh w0) <= SIZEOF_JH))
      \/ (img_jh (iw s) = mkJH JOURNAL_MAGIC SIZEOF_JH /\
          preads (iw s) JOURNAL_BASE SIZEOF_JH = true /\
          jmagic (img_jh w0) = JOURNAL_MAGIC /\ SIZEOF_JH < nbytes_used (img_jh w0))
  | IDied | IUndef => True
  end.

Lemma img_jh_reset jh w :
  jmagic jh = JOURNAL_MAGIC ->
  img_jh (reset_world jh w) = mkJH JOURNAL_MAGIC SIZEOF_JH /\
  preads (reset_world jh w) JOURNAL_BASE SIZEOF_JH = true.
Proof.
  intros Hm. unfold reset_world. rewrite Hm. split.
  - vm_compute. reflexivity.
  - unfold preads, fsync_w, pwrite_w; cbn [len].
    apply orb_true_iff. right. apply Z.leb_le.
    unfold JOURNAL_BASE, JOURNAL_BLOCK_IDX, BLOCK_SIZE, SIZEOF_JH. simpl. lia.
Qed.

Lemma once_inv_step cap stale w0 s : once_inv w0 s -> once_inv w0 (step cap stale s).
Proof.
  destruct s as [p jh w]. unfold once_inv, step; cbn [pc ijh iw].
  destruct p as [|off c|st tx c|a tx c|c|c| |]; intros H.
  - subst w. destruct (preads w0 JOURNAL_BASE SIZEOF_JH) eqn:Hr; [|exact I].
    fold (img_jh w0).
    destruct (negb (jmagic (img_jh w0) =? JOURNAL_MAGIC) || (nbytes_used (img_jh w0) <=? SIZEOF_JH))
      eqn:E; cbn [pc ijh iw].
    + left. repeat split; auto.
      apply orb_true_iff in E. destruct E as [E|E].
      * left. apply negb_true_iff, Z.eqb_neq in E. exact E.
      * right. apply Z.leb_le in E. exact E.
    + apply orb_false_iff in E. destruct E as [E1 E2].
      apply negb_false_iff, Z.eqb_eq in E1. apply Z.leb_gt in E2. auto.
  - destruct (_ && _); cbn [pc ijh iw]; exact H.
  - destruct (tx <? nbytes_used jh); cbn [pc ijh iw]; [|exact H].
    destruct (preads _ _ _); cbn [pc ijh iw]; [|exact I].
    destruct (_ =? REC_COMMIT); exact H.
  - destruct (a <? tx); cbn [pc ijh iw]; [|exact H].
    destruct (preads _ _ _); cbn [pc ijh iw]; [|exact I].
    destruct (_ =? REC_DATA); cbn [pc ijh iw]; [|exact H].
    destruct (_ && _); cbn [pc]; [exact I|].
    destruct (preads _ _ _); exact H || exact I.
  - destruct H as [Hjh [Hm Hu]]. right.
    destruct (img_jh_reset jh w) as [E1 E2]; [rewrite Hjh; exact Hm|].
    fold (reset_world jh w). auto.
  - exact H.
  - exact H.
  - exact I.
Qed.

Lemma once_inv_run cap stale w0 n s : once_inv w0 s -> once_inv w0 (run cap stale n s).
Proof.
  revert s. induction n as [|n IH]; intros s H; [exact H|].
  rewrite run_S. apply IH. apply once_inv_step. exact H.
Qed.

(** C6 (as stated): on a formatted image whose journal header is zero the
    install returns at once and bytes-used stays 0, not the header size. *)
Lemma install_bad_magic_cex :
  pc (install_journal (-1) 200 zero_world) = IDone 0 /\
  nbytes_used (img_jh (install_w zero_world)) = 0.
Proof. vm_compute. split; reflexivity. Qed.

(** C6 (amended): after any install run that returns, a second install run
    applies zero transactions and writes nothing, so it leaves the image as
    the first run left it. The first run leaves the header at
    [JOURNAL_MAGIC, 8] when the header it found had the valid magic and
    bytes-used of at least the header size; with an invalid magic (or
    bytes-used below the header size) it wrote nothing at all. A run that
    reads a data record of more than 4104 bytes into [dr] has undefined
    behaviour ([IUndef]) and never returns. *)
Theorem install_idempotent cap cap' stale stale' w n c jh1 w1 :
  run cap stale n (install_init w) = mkI (IDone c) jh1 w1 ->
  run cap' stale' 1 (install_init w1) = mkI (IDone 0) (img_jh w1) w1 /\
  (jmagic (img_jh w) = JOURNAL_MAGIC -> SIZEOF_JH <= nbytes_used (img_jh w) ->
   img_jh w1 = mkJH JOURNAL_MAGIC SIZEOF_JH) /\
  (jmagic (img_jh w) <> JOURNAL_MAGIC \/ nbytes_used (img_jh w) < SIZEOF_JH -> w1 = w).
Proof.
  intros Hrun.
  pose proof (once_inv_run cap stale w n (install_init w) eq_refl) as H.
  rewrite Hrun in H. unfold once_inv in H; cbn [pc iw ijh] in H.
  destruct H as [[Hw [Hc [Hr Hbad]]] | [Hh [Hr [Hm Hu]]]].
  - subst w1 c. split; [|split].
    + rewrite run_S; cbn [run]; unfold step, install_init; cbn [pc ijh iw]. rewrite Hr. fold (img_jh w).
      replace (negb (jmagic (img_jh w) =? JOURNAL_MAGIC) || (nbytes_used (img_jh w) <=? SIZEOF_JH))
        with true; [reflexivity|].
      symmetry. apply orb_true_iff. destruct Hbad as [Hb|Hb].
      * left. apply negb_true_iff, Z.eqb_neq. exact Hb.
      * right. apply Z.leb_le. exact Hb.
    + intros Hm Hu. destruct Hbad as [Hb|Hb]; [contradiction|].
      destruct (img_jh w) as [m u] eqn:E; cbn in *. f_equal; [exact Hm|].
      unfold SIZEOF_JH in *; lia.
    + intros _. reflexivity.
  - split; [|split].
    + rewrite run_S; cbn [run]; unfold step, install_init; cbn [pc ijh iw]. rewrite Hr. fold (img_jh w1). rewrite Hh.
      reflexivity.
    + intros _ _. exact Hh.
    + intros [Hb|Hb]; [contradiction|]. unfold SIZEOF_JH in *; lia.
Qed.

Lemma install_idempotent_witness :
  run (-1) zero_buf 200 (install_init (create_w [97] 0 zero_world)) =
    mkI (IDone 1) (ijh (install_journal (-1) 200 (create_w [97] 0 zero_world)))
        (install_w (create_w [97] 0 zero_world)) /\
  run (-1) zero_buf 1 (install_init (install_w (create_w [97] 0 zero_world))) =
    mkI (IDone 0) (img_jh (install_w (create_w [97] 0 zero_world)))
        (install_w (create_w [97] 0 zero_world)).
Proof.
  assert (H : run (-1) zero_buf 200 (install_init (create_w [97] 0 zero_world)) =
    mkI (IDone 1) (ijh (install_journal (-1) 200 (create_w [97] 0 zero_world)))
        (install_w (create_w [97] 0 zero_world))).
  { unfold install_w, install_journal.
    set (r := run (-1) zero_buf 200 (install_init (create_w [97] 0 zero_world))).
    assert (Hp : pc r = IDone 1) by (vm_compute; reflexivity).
    destruct r as [p j x]. cbn in Hp |- *. rewrite Hp. reflexivity. }
  split; [exact H|].
  exact (proj1 (install_idempotent (-1) (-1) zero_buf zero_buf _ 200 1 _ _ H)).
Defined.

(** ** Well-formed journals *)

(** The record at journal offset [off] is complete below [used]: its header
    and its [size] bytes lie below [used], its size is at least a record
    header, and a data record has the size create gives it and targets a
    block outside the journal. *)
Definition rec_ok (w : world) (used off : Z) : bool :=
  let t := rec_type_at w off in
  let sz := rec_size_at w off in
  (off + SIZEOF_RH <=? used) && (SIZEOF_RH <=? sz) && (off + sz <=? used) &&
  (negb (t =? REC_DATA) ||
   ((sz =? SIZEOF_DR) &&
    ((rec_block_at w off =? 0) || (INODE_BMAP_IDX <=? rec_block_at w off)))).

(** [reach w used a b]: walking complete records from offset [a] by their
    size fields arrives at offset [b]. *)
Inductive reach (w : world) (used : Z) : Z -> Z -> Prop :=
| reach_refl a : reach w used a a
| reach_next a b :
    rec_ok w used a = true -> reach w used (a + rec_size_at w a) b -> reach w used a b.

(** The used region of a journal with a valid header lies in the journal
    region and is a sequence of complete records, as create writes them. *)
Definition journal_wf (w : world) : Prop :=
  jmagic (img_jh w) = JOURNAL_MAGIC -> SIZEOF_JH < nbytes_used (img_jh w) ->
  nbytes_used (img_jh w) <= JOURNAL_BYTES /\
  reach w (nbytes_used (img_jh w)) SIZEOF_JH (nbytes_used (img_jh w)).

Lemma rec_ok_spec w U a :
  rec_ok w U a = true ->
  a + SIZEOF_RH <= U /\ SIZEOF_RH <= rec_size_at w a /\ a + rec_size_at w a <= U /\
  (rec_type_at w a = REC_DATA ->
   rec_size_at w a = SIZEOF_DR /\
   (rec_block_at w a = 0 \/ INODE_BMAP_IDX <= rec_block_at w a)).
Proof.
  unfold rec_ok. intros H.
  repeat rewrite andb_true_iff in H. destruct H as [[[H1 H2] H3] H4].
  apply Z.leb_le in H1, H2, H3.
  split; [exact H1|]. split; [exact H2|]. split; [exact H3|].
  intros Ht. rewrite Ht in H4. cbn in H4.
  apply andb_true_iff in H4. destruct H4 as [H4 H5].
  split; [apply Z.eqb_eq; exact H4|].
  apply orb_true_iff in H5. destruct H5 as [H5|H5];
    [left; apply Z.eqb_eq | right; apply Z.leb_le]; exact H5.
Qed.

Lemma reach_le w U a b : reach w U a b -> a <= b.
Proof.
  induction 1 as [|a b Hok _ IH]; [lia|].
  apply rec_ok_spec in Hok. unfold SIZEOF_RH in Hok. lia.
Qed.

Lemma reach_trans w U a b c : reach w U a b -> reach w U b c -> reach w U a c.
Proof. induction 1; intros; [assumption|]. eapply reach_next; eauto. Qed.

Lemma reach_inv w U a b :
  reach w U a b -> a <> b -> rec_ok w U a = true /\ reach w U (a + rec_size_at w a) b.
Proof. destruct 1; [congruence|]. auto. Qed.

Lemma reach_step w U a : rec_ok w U a = true -> reach w U a (a + rec_size_at w a).
Proof. intros H. apply reach_next; [exact H|apply reach_refl]. Qed.

Lemma get_le16_ext b b' o o' :
  b o = b' o' -> b (o + 1) = b' (o' + 1) -> get_le16 b o = get_le16 b' o'.
Proof. intros H0 H1. unfold get_le16, byte_at. rewrite H0, H1. reflexivity. Qed.

Lemma get_le32_ext b b' o o' :
  (forall k, 0 <= k < 4 -> b (o + k) = b' (o' + k)) -> get_le32 b o = get_le32 b' o'.
Proof.
  intros H. unfold get_le32. f_equal; [|f_equal]; apply get_le16_ext.
  - specialize (H 0 ltac:(lia)). rewrite !Z.add_0_r in H. exact H.
  - apply H. lia.
  - apply H. lia.
  - rewrite <- !Z.add_assoc. apply H. lia.
Qed.

(** [rec_ok] and the walk only look at the journal bytes below [used]. *)
Lemma rec_ok_frame w w' U a :
  0 <= a ->
  (forall x, JOURNAL_BASE <= x < JOURNAL_BASE + U -> img w x = img w' x) ->
  rec_ok w U a = true ->
  rec_ok w' U a = true /\ rec_size_at w' a = rec_size_at w a.
Proof.
  intros Ha Hag Hok.
  pose proof (rec_ok_spec _ _ _ Hok) as [H1 [H2 [H3 H4]]].
  unfold SIZEOF_RH in *.
  assert (Ht : rec_type_at w' a = rec_type_at w a).
  { unfold rec_type_at. apply get_le16_ext; symmetry; apply Hag; unfold JOURNAL_BASE, JOURNAL_BLOCK_IDX, BLOCK_SIZE in *; lia. }
  assert (Hs : rec_size_at w' a = rec_size_at w a).
  { unfold rec_size_at. apply get_le16_ext; symmetry; apply Hag; unfold JOURNAL_BASE, JOURNAL_BLOCK_IDX, BLOCK_SIZE in *; lia. }
  split; [|exact Hs].
  unfold rec_ok in *. rewrite Ht, Hs.
  destruct (rec_type_at w a =? REC_DATA) eqn:Et; [|exact Hok].
  apply Z.eqb_eq in Et. destruct (H4 Et) as [Hsz _].
  assert (Hb : rec_block_at w' a = rec_block_at w a).
  { unfold rec_block_at. apply get_le32_ext. intros k Hk. symmetry. apply Hag.
    unfold SIZEOF_DR, JOURNAL_BASE, JOURNAL_BLOCK_IDX, BLOCK_SIZE in *; lia. }
  rewrite Hb. exact Hok.
Qed.

Lemma reach_frame w w' U a b :
  0 <= a ->
  (forall x, JOURNAL_BASE <= x < JOURNAL_BASE + U -> img w x = img w' x) ->
  reach w U a b -> reach w' U a b.
Proof.
  intros Ha Hag H. induction H as [a|a b Hok _ IH]; [apply reach_refl|].
  destruct (rec_ok_frame w w' U a Ha Hag Hok) as [Hok' Hs].
  pose proof (rec_ok_spec _ _ _ Hok) as [_ [H2 _]].
  apply reach_next; [exact Hok'|]. rewrite Hs. apply IH. unfold SIZEOF_RH in H2. lia.
Qed.

Lemma wrap32_small x : 0 <= x < 2 ^ 32 -> wrap32 x = x.
Proof. intros H. unfold wrap32. apply Z.mod_small. exact H. Qed.

Lemma dr_block stale w a :
  rec_size_at w a = SIZEOF_DR ->
  get_le32 (upd stale 0 (rec_size_at w a) (fun i => img w (JOURNAL_BASE + a + i))) 4 =
  rec_block_at w a.
Proof.
  intros Hs. unfold rec_block_at. apply get_le32_ext. intros k Hk.
  unfold upd. rewrite Hs.
  replace ((0 <=? 4 + k) && (4 + k <? 0 + SIZEOF_DR)) with true
    by (symmetry; apply andb_true_iff; split; [apply Z.leb_le|apply Z.ltb_lt];
        unfold SIZEOF_DR; lia).
  cbv beta. f_equal. lia.
Qed.

(** [write_block] to a block outside the journal leaves the journal alone. *)
Lemma pwrite_outside_journal w blk d U x :
  blk = 0 \/ INODE_BMAP_IDX <= blk -> U <= JOURNAL_BYTES ->
  JOURNAL_BASE <= x < JOURNAL_BASE + U ->
  img w x = img (pwrite_w w (blk * BLOCK_SIZE) BLOCK_SIZE d) x.
Proof.
  intros Hb HU Hx. unfold pwrite_w, upd; cbn [img].
  replace ((blk * BLOCK_SIZE <=? x) && (x <? blk * BLOCK_SIZE + BLOCK_SIZE)) with false;
    [reflexivity|].
  symmetry. apply andb_false_iff. unfold_layout.
  destruct Hb as [Hb|Hb]; [right; apply Z.ltb_ge; subst; lia | left; apply Z.leb_gt; lia].
Qed.

(** What holds along an install run on a well-formed journal: every offset
    the loops hold is a record boundary of the walk from 8 to bytes-used. *)
Definition wf_inv (s : ist) : Prop :=
  let w := iw s in
  let U := nbytes_used (ijh s) in
  match pc s with
  | IStart => journal_wf w
  | IOuter off _ => U <= JOURNAL_BYTES /\ SIZEOF_JH <= off /\ reach w U off U
  | IScan st tx _ =>
      U <= JOURNAL_BYTES /\ SIZEOF_JH <= st /\ reach w U st tx /\ reach w U tx U
  | IApply a tx _ =>
      U <= JOURNAL_BYTES /\ SIZEOF_JH <= a /\ reach w U a tx /\ reach w U tx U
  | IReset _ | IDone _ | IDied | IUndef => True
  end.

Lemma wf_inv_step cap stale s : wf_inv s -> wf_inv (step cap stale s).
Proof.
  destruct s as [p jh w]. unfold wf_inv, step; cbn [pc ijh iw].
  destruct p as [|off c|st tx c|a tx c|c|c| |]; intros H.
  - destruct (preads w JOURNAL_BASE SIZEOF_JH); [|exact I].
    fold (img_jh w).
    destruct (negb (jmagic (img_jh w) =? JOURNAL_MAGIC) || (nbytes_used (img_jh w) <=? SIZEOF_JH))
      eqn:E; cbn [pc ijh iw]; [exact I|].
    apply orb_false_iff in E as [E1 E2].
    apply negb_false_iff, Z.eqb_eq in E1. apply Z.leb_gt in E2.
    destruct (H E1 E2) as [HU Hr]. split; [exact HU|]. split; [lia|exact Hr].
  - destruct H as [HU [Hoff Hr]].
    destruct (_ && _); cbn [pc ijh iw]; [|exact I].
    split; [exact HU|]. split; [exact Hoff|]. split; [apply reach_refl|exact Hr].
  - destruct H as [HU [Hst [Hr1 Hr2]]].
    destruct (Z.ltb_spec tx (nbytes_used jh)) as [Hlt|_]; cbn [pc ijh iw]; [|exact I].
    destruct (preads _ _ _); cbn [pc ijh iw]; [|exact I].
    destruct (reach_inv _ _ _ _ Hr2 ltac:(lia)) as [Hok Hr3].
    pose proof (rec_ok_spec _ _ _ Hok) as [_ [Hs1 [Hs2 _]]].
    pose proof (reach_le _ _ _ _ Hr1).
    rewrite wrap32_small by (unfold_layout; lia).
    assert (Hr4 : reach w (nbytes_used jh) st (tx + rec_size_at w tx))
      by (eapply reach_trans; [exact Hr1|apply reach_step; exact Hok]).
    destruct (_ =? REC_COMMIT); cbn [pc ijh iw]; auto.
  - destruct H as [HU [Ha [Hr1 Hr2]]].
    pose proof (reach_le _ _ _ _ Hr1). pose proof (reach_le _ _ _ _ Hr2).
    destruct (Z.ltb_spec a tx) as [Hlt|Hge]; cbn [pc ijh iw].
    2: { assert (a = tx) by lia. subst a. split; [exact HU|]. split; [lia|exact Hr2]. }
    destruct (preads _ _ _); cbn [pc ijh iw]; [|exact I].
    destruct (reach_inv _ _ _ _ Hr1 ltac:(lia)) as [Hok Hr3].
    pose proof (rec_ok_spec _ _ _ Hok) as [_ [Hs1 [Hs2 Hdata]]].
    rewrite wrap32_small by (unfold_layout; lia).
    destruct (Z.eqb_spec (rec_type_at w a) REC_DATA) as [Ht|Ht]; cbn [pc ijh iw].
    + destruct (Hdata Ht) as [Hsz Hblk].
      replace (SIZEOF_DR <? rec_size_at w a) with false
        by (rewrite Hsz; symmetry; apply Z.ltb_irrefl).
      cbn [andb].
      destruct (preads _ _ _); cbn [pc ijh iw]; [|exact I].
      rewrite dr_block by exact Hsz.
      assert (Hag : forall x, JOURNAL_BASE <= x < JOURNAL_BASE + nbytes_used jh ->
        img w x = img (pwrite_w w (rec_block_at w a * BLOCK_SIZE) BLOCK_SIZE
          (fun i => upd stale 0 (rec_size_at w a)
                      (fun i0 => img w (JOURNAL_BASE + a + i0)) (8 + i))) x)
        by (intros x Hx; exact (pwrite_outside_journal w _ _ (nbytes_used jh) x Hblk HU Hx)).
      split; [exact HU|]. split; [unfold SIZEOF_RH in *; lia|].
      split; (eapply reach_frame; [|exact Hag|]); eauto; unfold SIZEOF_RH, SIZEOF_JH in *; lia.
    + split; [exact HU|]. split; [unfold SIZEOF_RH in *; lia|]. auto.
  - exact I.
  - exact I.
  - exact I.
  - exact I.
Qed.

Lemma wf_inv_run cap stale n s : wf_inv s -> wf_inv (run cap stale n s).
Proof.
  revert s. induction n as [|n IH]; intros s H; [exact H|].
  rewrite run_S. apply IH. apply wf_inv_step. exact H.
Qed.

(** ** Termination *)

(** Program points inside the loops or at the final header reset. *)
Definition in_run (p : ipc) : bool :=
  match p with IOuter _ _ | IScan _ _ _ | IApply _ _ _ | IReset _ => true | _ => false end.

(** Decreases at every step of a run on a well-formed journal. *)
Definition measure (s : ist) : Z :=
  let U := nbytes_used (ijh s) in
  match pc s with
  | IOuter off _ => 2 * (U - off) + 2
  | IScan st tx _ => (U - st) + (U - tx) + 1
  | IApply a tx _ => (tx - a) + 2 * (U - tx) + 3
  | IReset _ => 0
  | IStart | IDone _ | IDied | IUndef => 0
  end.

Lemma pwrite_len w pos n d : len w <= len (pwrite_w w pos n d).
Proof. unfold pwrite_w; cbn [len]. destruct (0 <? n); lia. Qed.

Lemma step_len cap stale s : len (iw s) <= len (iw (step cap stale s)).
Proof.
  destruct s as [p jh w]. unfold step; cbn [pc ijh iw].
  destruct p; repeat match goal with
    | |- context [if ?b then _ else _] => destruct b
    end; cbn [iw]; try lia; try apply pwrite_len.
Qed.

Lemma preads_journal w U p n :
  0 <= p -> 0 <= n -> p + n <= U -> U <= JOURNAL_BYTES ->
  JOURNAL_BASE + JOURNAL_BYTES <= len w -> preads w (JOURNAL_BASE + p) n = true.
Proof. intros. apply preads_true; lia. Qed.

Lemma step_progress cap stale s :
  wf_inv s -> JOURNAL_BASE + JOURNAL_BYTES <= len (iw s) -> in_run (pc s) = true ->
  (exists c, pc (step cap stale s) = IDone c) \/
  (in_run (pc (step cap stale s)) = true /\ 0 <= measure (step cap stale s) < measure s).
Proof.
  destruct s as [p jh w]. unfold wf_inv, measure, step; cbn [pc ijh iw len].
  set (U := nbytes_used jh).
  destruct p as [|off c|st tx c|a tx c|c|c| |]; intros H Hlen Hin; try discriminate Hin.
  - destruct H as [HU [Hoff Hr]]. pose proof (reach_le _ _ _ _ Hr).
    destruct (_ && _); cbn [pc ijh iw in_run]; right; split; auto; fold U; lia.
  - destruct H as [HU [Hst [Hr1 Hr2]]].
    pose proof (reach_le _ _ _ _ Hr1). pose proof (reach_le _ _ _ _ Hr2).
    fold U. destruct (Z.ltb_spec tx U) as [Hlt|Hge]; cbn [pc ijh iw in_run].
    2: { right. split; [reflexivity|]. lia. }
    destruct (reach_inv _ _ _ _ Hr2 ltac:(lia)) as [Hok _].
    pose proof (rec_ok_spec _ _ _ Hok) as [Hs0 [Hs1 [Hs2 _]]].
    unfold SIZEOF_RH, SIZEOF_JH in *.
    rewrite (preads_journal w U tx 4) by lia.
    rewrite wrap32_small by (unfold_layout; lia).
    destruct (_ =? REC_COMMIT); cbn [pc ijh iw in_run]; right; split; auto; fold U; lia.
  - destruct H as [HU [Ha [Hr1 Hr2]]].
    pose proof (reach_le _ _ _ _ Hr1). pose proof (reach_le _ _ _ _ Hr2).
    destruct (Z.ltb_spec a tx) as [Hlt|Hge]; cbn [pc ijh iw in_run].
    2: { right. split; [reflexivity|]. fold U. lia. }
    destruct (reach_inv _ _ _ _ Hr1 ltac:(lia)) as [Hok _].
    pose proof (rec_ok_spec _ _ _ Hok) as [Hs0 [Hs1 [Hs2 Hdata]]].
    unfold SIZEOF_RH, SIZEOF_JH in *.
    rewrite (preads_journal w U a 4) by lia.
    rewrite wrap32_small by (unfold_layout; lia).
    destruct (Z.eqb_spec (rec_type_at w a) REC_DATA) as [Ht|Ht]; cbn [pc ijh iw in_run].
    + destruct (Hdata Ht) as [Hsz _].
      replace (SIZEOF_DR <? rec_size_at w a) with false
        by (rewrite Hsz; symmetry; apply Z.ltb_irrefl).
      cbn [andb].
      rewrite (preads_journal w U a (rec_size_at w a)) by lia.
      cbn [pc ijh iw in_run]. right. split; [reflexivity|]. fold U. lia.
    + right. split; [reflexivity|]. fold U. lia.
  - left. exists c. reflexivity.
Qed.

Lemma step_never_start cap stale s : pc s <> IStart -> pc (step cap stale s) <> IStart.
Proof.
  destruct s as [p jh w]. unfold step; cbn [pc ijh iw].
  destruct p; intros H; repeat match goal with
    | |- context [if ?b then _ else _] => destruct b
    end; cbn [pc]; congruence.
Qed.

Lemma run_done cap stale n s c : pc s = IDone c -> run cap stale n s = s.
Proof.
  revert s. induction n as [|n IH]; intros s H; [reflexivity|].
  rewrite run_S. assert (E : step cap stale s = s).
  { destruct s as [p jh w]. cbn in H. subst p. reflexivity. }
  rewrite E. apply IH. exact H.
Qed.

Lemma terminates_from cap stale k s :
  wf_inv s -> JOURNAL_BASE + JOURNAL_BYTES <= len (iw s) -> in_run (pc s) = true ->
  (Z.to_nat (measure s) < k)%nat ->
  exists n c, pc (run cap stale n s) = IDone c.
Proof.
  revert s. induction k as [|k IH]; intros s Hwf Hlen Hin Hk; [lia|].
  destruct (step_progress cap stale s Hwf Hlen Hin) as [[c Hc]|[Hin' Hm]].
  - exists 1%nat, c. exact Hc.
  - destruct (IH (step cap stale s)) as [n [c Hc]].
    + apply wf_inv_step. exact Hwf.
    + pose proof (step_len cap stale s). lia.
    + exact Hin'.
    + lia.
    + exists (S n), c. rewrite run_S. exact Hc.
Qed.

(** Executable check of [journal_wf], walking at most [fuel] records. *)
Fixpoint walk (w : world) (U : Z) (fuel : nat) (a : Z) : bool :=
  if a =? U then true
  else match fuel with
       | O => false
       | S f => rec_ok w U a && walk w U f (a + rec_size_at w a)
       end.

Definition wf_check (fuel : nat) (w : world) : bool :=
  let jh := img_jh w in
  negb (jmagic jh =? JOURNAL_MAGIC) || (nbytes_used jh <=? SIZEOF_JH) ||
  ((nbytes_used jh <=? JOURNAL_BYTES) && walk w (nbytes_used jh) fuel SIZEOF_JH).

Lemma walk_sound w U fuel a : walk w U fuel a = true -> reach w U a U.
Proof.
  revert a. induction fuel as [|f IH]; intros a H; cbn [walk] in H;
    destruct (Z.eqb_spec a U) as [E|Hne].
  - rewrite E. apply reach_refl.
  - discriminate.
  - rewrite E. apply reach_refl.
  - apply andb_true_iff in H as [Hok Hw]. apply reach_next; [exact Hok|]. apply IH, Hw.
Qed.

Lemma wf_check_sound fuel w : wf_check fuel w = true -> journal_wf w.
Proof.
  unfold wf_check, journal_wf. intros H Hm Hu.
  rewrite Hm, Z.eqb_refl in H. cbn [negb orb] in H.
  destruct (Z.leb_spec (nbytes_used (img_jh w)) SIZEOF_JH); [lia|]. cbn [orb] in H.
  apply andb_true_iff in H as [H1 H2]. split; [apply Z.leb_le, H1|]. exact (walk_sound _ _ _ _ H2).
Qed.

(** A journal whose header says 12 bytes are used and whose first record
    header has type 1 and size 0. *)
Definition zero_size_world : world :=
  pwrite_w (pwrite_w zero_world JOURNAL_BASE SIZEOF_JH (jh_bytes (mkJH JOURNAL_MAGIC 12)))
           (JOURNAL_BASE + SIZEOF_JH) SIZEOF_RH (rh_bytes REC_DATA 0).

(** With a zero-size record in the used region the commit search never
    advances ([tx_off += 0]) and install never stops. *)
Lemma zero_size_never_stops :
  forall n, is_stop (pc (run (-1) zero_buf n (install_init zero_size_world))) = false.
Proof.
  set (S0 := mkI (IScan 8 8 0) (img_jh zero_size_world) zero_size_world).
  assert (H2 : run (-1) zero_buf 2 (install_init zero_size_world) = S0) by reflexivity.
  assert (Hfix : step (-1) zero_buf S0 = S0) by reflexivity.
  assert (Hloop : forall m, run (-1) zero_buf m S0 = S0).
  { induction m as [|m IH]; [reflexivity|]. rewrite run_S, Hfix. exact IH. }
  intros [|[|n]]; [reflexivity|reflexivity|].
  replace (S (S n)) with (2 + n)%nat by lia. rewrite run_add, H2, Hloop. reflexivity.
Qed.

(** C8 (as stated): on the image [zero_size_world] the run reaches, after
    two steps, the scan state at offset 8, which [step] maps to itself and
    which is not a stop state. *)
Lemma install_zero_size_loops :
  run (-1) zero_buf 2 (install_init zero_size_world) =
    mkI (IScan 8 8 0) (mkJH JOURNAL_MAGIC 12) zero_size_world /\
  step (-1) zero_buf (mkI (IScan 8 8 0) (mkJH JOURNAL_MAGIC 12) zero_size_world) =
    mkI (IScan 8 8 0) (mkJH JOURNAL_MAGIC 12) zero_size_world /\
  is_stop (IScan 8 8 0) = false.
Proof. split; [|split]; vm_compute; reflexivity. Qed.

(** C8 (amended): install returns, for every cap, on every image whose
    journal region is present in full and whose used region (when the
    header is valid) is a sequence of complete records as create writes
    them; record size fields of 0 (or walks that leave the journal) are not
    covered and can make it loop forever. *)
Theorem install_terminates cap stale w :
  journal_wf w -> JOURNAL_BASE + JOURNAL_BYTES <= len w ->
  exists n c, pc (run cap stale n (install_init w)) = IDone c.
Proof.
  intros Hwf Hlen.
  assert (Hr : preads w JOURNAL_BASE SIZEOF_JH = true)
    by (apply preads_true; unfold_layout; lia).
  pose proof (wf_inv_step cap stale (install_init w) Hwf) as Hwf1.
  pose proof (step_len cap stale (install_init w)) as Hlen1. cbn [iw install_init] in Hlen1.
  unfold step, install_init in Hwf1, Hlen1 |- *; cbn [pc ijh iw] in Hwf1, Hlen1.
  rewrite Hr in Hwf1, Hlen1. fold (img_jh w) in Hwf1, Hlen1.
  destruct (negb (jmagic (img_jh w) =? JOURNAL_MAGIC) || (nbytes_used (img_jh w) <=? SIZEOF_JH)) eqn:E.
  - exists 1%nat, 0. rewrite run_S. cbn [run]. unfold step; cbn [pc iw].
    rewrite Hr. fold (img_jh w). rewrite E. reflexivity.
  - destruct (terminates_from cap stale (S (Z.to_nat (measure (mkI (IOuter SIZEOF_JH 0) (img_jh w) w))))
                (mkI (IOuter SIZEOF_JH 0) (img_jh w) w)) as [n [c Hc]].
    + exact Hwf1.
    + exact Hlen.
    + reflexivity.
    + lia.
    + exists (S n), c. rewrite run_S. unfold step at 1, install_init; cbn [pc ijh iw].
      rewrite Hr. fold (img_jh w). rewrite E. exact Hc.
Qed.

Lemma install_terminates_witness :
  (journal_wf (create_w [97] 0 zero_world) /\
   JOURNAL_BASE + JOURNAL_BYTES <= len (create_w [97] 0 zero_world)) /\
  exists n c, pc (run (-1) zero_buf n (install_init (create_w [97] 0 zero_world))) = IDone c.
Proof.
  assert (Hwf : journal_wf (create_w [97] 0 zero_world))
    by (apply (wf_check_sound 10); vm_compute; reflexivity).
  assert (Hlen : JOURNAL_BASE + JOURNAL_BYTES <= len (create_w [97] 0 zero_world))
    by (vm_compute; discriminate).
  split; [split; assumption|].
  exact (install_terminates (-1) zero_buf (create_w [97] 0 zero_world) Hwf Hlen).
Defined.

(** ** Tail noninterference *)

(** Journal bytes at or past [max used 8]: the unused tail of the journal. *)
Definition in_tail (used a : Z) : Prop :=
  JOURNAL_BASE + Z.max used SIZEOF_JH <= a < JOURNAL_BASE + JOURNAL_BYTES.

(** Two images that may differ only in the journal tail. *)
Definition agree (used : Z) (w1 w2 : world) : Prop :=
  len w1 = len w2 /\ forall a, ~ in_tail used a -> img w1 a = img w2 a.

(** Two runs in lock step: same program point and header variable, images
    agreeing outside the tail of the original header's [nbytes_used]. *)
Definition simr (U : Z) (s1 s2 : ist) : Prop :=
  pc s1 = pc s2 /\ ijh s1 = ijh s2 /\ agree U (iw s1) (iw s2) /\
  match pc s1 with
  | IStart => nbytes_used (img_jh (iw s1)) = U
  | IOuter _ _ | IScan _ _ _ | IApply _ _ _ => nbytes_used (ijh s1) = U
  | _ => True
  end.

Lemma agree_below U w1 w2 x :
  agree U w1 w2 -> x < Z.max U SIZEOF_JH -> img w1 (JOURNAL_BASE + x) = img w2 (JOURNAL_BASE + x).
Proof. intros [_ H] Hx. apply H. unfold in_tail. lia. Qed.

Lemma agree_preads U w1 w2 p n : agree U w1 w2 -> preads w1 p n = preads w2 p n.
Proof. intros [Hl _]. unfold preads. rewrite Hl. reflexivity. Qed.

Lemma agree_pwrite U w1 w2 p n d1 d2 :
  agree U w1 w2 -> (forall i, 0 <= i < n -> d1 i = d2 i) ->
  agree U (pwrite_w w1 p n d1) (pwrite_w w2 p n d2).
Proof.
  intros [Hl Hi] Hd. unfold pwrite_w, upd. split; cbn [img len]; [rewrite Hl; reflexivity|].
  intros a Ha. destruct ((p <=? a) && (a <? p + n)) eqn:E.
  - apply Hd. apply andb_true_iff in E as [E1 E2]. apply Z.leb_le in E1. apply Z.ltb_lt in E2. lia.
  - apply Hi, Ha.
Qed.

Lemma agree_fsync U w1 w2 : agree U w1 w2 -> agree U (fsync_w w1) (fsync_w w2).
Proof. intros H. exact H. Qed.

Lemma agree_img_jh U w1 w2 : agree U w1 w2 -> img_jh w1 = img_jh w2.
Proof.
  intros H. unfold img_jh, decode_jh. f_equal; apply get_le32_ext; intros k Hk;
    cbv beta; apply (agree_below U); [exact H|unfold SIZEOF_JH; lia|exact H|unfold SIZEOF_JH; lia].
Qed.

Lemma agree_rec_fields U w1 w2 a :
  agree U w1 w2 -> a + SIZEOF_RH <= U ->
  rec_type_at w1 a = rec_type_at w2 a /\ rec_size_at w1 a = rec_size_at w2 a.
Proof.
  intros H Ha. unfold SIZEOF_RH in Ha. unfold rec_type_at, rec_size_at. split; apply get_le16_ext;
    rewrite <- ?Z.add_assoc; apply (agree_below U); (exact H || lia).
Qed.

Lemma agree_rec_block U w1 w2 a :
  agree U w1 w2 -> a + SIZEOF_DR <= U -> rec_block_at w1 a = rec_block_at w2 a.
Proof.
  intros H Ha. unfold SIZEOF_DR in Ha. unfold rec_block_at. apply get_le32_ext. intros k Hk.
  rewrite <- !Z.add_assoc. apply (agree_below U); [exact H|lia].
Qed.

Ltac sim_split :=
  refine (conj eq_refl (conj eq_refl (conj _ _))); cbn [pc ijh iw];
  [|try exact I; try assumption].

Lemma simr_step cap stale U s1 s2 :
  wf_inv s1 -> simr U s1 s2 -> simr U (step cap stale s1) (step cap stale s2).
Proof.
  destruct s1 as [p jh w1], s2 as [p2 jh2 w2].
  unfold simr, wf_inv; cbn [pc ijh iw]. intros Hwf [Hp [Hj [Hag Hu]]]. subst p2 jh2.
  unfold step; cbn [pc ijh iw].
  destruct p as [|off c|st tx c|a tx c|c|c| |].
  - rewrite <- (agree_preads U w1 w2 _ _ Hag).
    destruct (preads w1 JOURNAL_BASE SIZEOF_JH); cbn [pc ijh iw];
      [|sim_split; try exact Hag].
    fold (img_jh w1) (img_jh w2). rewrite <- (agree_img_jh U w1 w2 Hag).
    destruct (_ || _); cbn [pc ijh iw]; sim_split; try exact Hag.
  - destruct (_ && _); cbn [pc ijh iw]; sim_split; try exact Hag.
  - destruct Hwf as [HU [Hst [Hr1 Hr2]]].
    destruct (Z.ltb_spec tx (nbytes_used jh)) as [Hlt|Hge]; cbn [pc ijh iw];
      [|sim_split; try exact Hag].
    destruct (reach_inv _ _ _ _ Hr2 ltac:(lia)) as [Hok _].
    pose proof (rec_ok_spec _ _ _ Hok) as [Hs0 _].
    destruct (agree_rec_fields U w1 w2 tx Hag ltac:(lia)) as [Et Es].
    rewrite <- (agree_preads U w1 w2 _ _ Hag), <- Et, <- Es.
    destruct (preads _ _ _); [|sim_split; try exact Hag].
    destruct (_ =? REC_COMMIT); cbn [pc ijh iw]; sim_split; try exact Hag.
  - destruct Hwf as [HU [Ha [Hr1 Hr2]]].
    pose proof (reach_le _ _ _ _ Hr2).
    destruct (Z.ltb_spec a tx) as [Hlt|Hge]; cbn [pc ijh iw];
      [|sim_split; try exact Hag].
    destruct (reach_inv _ _ _ _ Hr1 ltac:(lia)) as [Hok _].
    pose proof (rec_ok_spec _ _ _ Hok) as [Hs0 [Hs1 [Hs2 Hdata]]].
    destruct (agree_rec_fields U w1 w2 a Hag ltac:(lia)) as [Et Es].
    rewrite <- (agree_preads U w1 w2 _ _ Hag), <- Et, <- Es.
    destruct (preads _ _ _); [|sim_split; try exact Hag].
    destruct (Z.eqb_spec (rec_type_at w1 a) REC_DATA) as [Ht|Ht]; cbn [pc ijh iw];
      [|sim_split; try exact Hag].
    destruct (Hdata Ht) as [Hsz _].
    replace (SIZEOF_DR <? rec_size_at w1 a) with false
      by (rewrite Hsz; symmetry; apply Z.ltb_irrefl).
    cbn [andb].
    rewrite <- (agree_preads U w1 w2 _ _ Hag).
    destruct (preads _ _ _); cbn [pc ijh iw]; [|sim_split; try exact Hag].
    set (dr1 := upd stale 0 (rec_size_at w1 a) (fun i => img w1 (JOURNAL_BASE + a + i))).
    set (dr2 := upd stale 0 (rec_size_at w1 a) (fun i => img w2 (JOURNAL_BASE + a + i))).
    assert (Hdr : forall i, 0 <= i < SIZEOF_DR -> dr1 i = dr2 i).
    { intros i Hi. unfold dr1, dr2, upd. destruct (_ && _); [|reflexivity].
      rewrite <- !Z.add_assoc. apply (agree_below U); [exact Hag|]. unfold SIZEOF_DR in *. lia. }
    replace (get_le32 dr2 4) with (get_le32 dr1 4)
      by (apply get_le32_ext; intros k Hk; apply Hdr; unfold SIZEOF_DR; lia).
    sim_split.
    apply agree_pwrite; [exact Hag|]. intros i Hi. apply Hdr. unfold SIZEOF_DR, BLOCK_SIZE in *. lia.
  - cbn [pc ijh iw]. sim_split.
    apply agree_fsync, agree_pwrite; [exact Hag|reflexivity].
  - sim_split; try exact Hag.
  - sim_split; try exact Hag.
  - sim_split; try exact Hag.
Qed.

Lemma simr_run cap stale U n s1 s2 :
  wf_inv s1 -> simr U s1 s2 -> simr U (run cap stale n s1) (run cap stale n s2).
Proof.
  revert s1 s2. induction n as [|n IH]; intros s1 s2 Hwf Hs; [exact Hs|].
  rewrite !run_S. apply IH; [apply wf_inv_step, Hwf|apply simr_step; assumption].
Qed.

Lemma agree_tail_write U w p n d :
  JOURNAL_BASE + Z.max U SIZEOF_JH <= p -> p + n <= JOURNAL_BASE + JOURNAL_BYTES ->
  p + n <= len w -> agree U w (pwrite_w w p n d).
Proof.
  intros H1 H2 H3. unfold pwrite_w, upd. split; cbn [img len].
  - destruct (0 <? n); lia.
  - intros a Ha. destruct ((p <=? a) && (a <? p + n)) eqn:E; [|reflexivity].
    exfalso. apply Ha. apply andb_true_iff in E as [E1 E2].
    apply Z.leb_le in E1. apply Z.ltb_lt in E2. unfold in_tail. lia.
Qed.

(** A journal whose header says 4113 bytes are used: one data record for
    block 30 at offset 8 and a commit record at offset 4112, three of whose
    four bytes lie past bytes-used. *)
Definition crossing_world : world :=
  pwrite_w
    (pwrite_w (pwrite_w zero_world JOURNAL_BASE SIZEOF_JH (jh_bytes (mkJH JOURNAL_MAGIC 4113)))
              (JOURNAL_BASE + SIZEOF_JH) SIZEOF_DR (data_record_bytes 30 (fun _ => 7)))
    (JOURNAL_BASE + 4112) SIZEOF_CR commit_record_bytes.

(** The same image with journal byte 4113 (past bytes-used) set to 1, which
    turns the record type at 4112 into 258. *)
Definition crossing_world' : world :=
  pwrite_w crossing_world (JOURNAL_BASE + 4113) 1 (fun _ => 1).

(** C4 (as stated): two images with the same header and the same bytes below
    bytes-used install to different real blocks, because the record header
    read at offset 4112 < 4113 takes its type byte from offset 4113. *)
Lemma install_tail_cex :
  img_jh crossing_world = img_jh crossing_world' /\
  nbytes_used (img_jh crossing_world) = 4113 /\
  len crossing_world = len crossing_world' /\
  (forall a, a <> JOURNAL_BASE + 4113 -> img crossing_world a = img crossing_world' a) /\
  ijh (install_journal (-1) 200 crossing_world) = ijh (install_journal (-1) 200 crossing_world') /\
  img (install_w crossing_world) (30 * BLOCK_SIZE) = 7 /\
  img (install_w crossing_world') (30 * BLOCK_SIZE) = 0.
Proof.
  split; [vm_compute; reflexivity|].
  split; [vm_compute; reflexivity|].
  split; [vm_compute; reflexivity|].
  split.
  { intros a Ha. unfold crossing_world' at 1, pwrite_w, upd; cbn [img].
    destruct ((JOURNAL_BASE + 4113 <=? a) && (a <? JOURNAL_BASE + 4113 + 1)) eqn:E;
      [|reflexivity].
    apply andb_true_iff in E as [E1 E2]. apply Z.leb_le in E1. apply Z.ltb_lt in E2. lia. }
  split; [vm_compute; reflexivity|].
  split; vm_compute; reflexivity.
Qed.

(** C4 (amended): for an image whose journal is well-formed (the used
    region, when the header is valid, is a sequence of complete records
    lying inside it, every data record being 4104 bytes long and targeting
    block 0 or a block from 17 up, never a journal block), the bytes of the journal at or past bytes-used (and past
    the header) never influence install: a second image that agrees with it
    everywhere else runs in lock step with it, with the same program point,
    the same header and images that keep agreeing outside that tail, so the
    real blocks and the header install writes are the same. *)
Theorem install_tail_noninterference cap stale w1 w2 n :
  journal_wf w1 -> agree (nbytes_used (img_jh w1)) w1 w2 ->
  pc (run cap stale n (install_init w1)) = pc (run cap stale n (install_init w2)) /\
  ijh (run cap stale n (install_init w1)) = ijh (run cap stale n (install_init w2)) /\
  agree (nbytes_used (img_jh w1))
        (iw (run cap stale n (install_init w1))) (iw (run cap stale n (install_init w2))).
Proof.
  intros Hwf Hag.
  destruct (simr_run cap stale (nbytes_used (img_jh w1)) n (install_init w1) (install_init w2))
    as [H1 [H2 [H3 _]]].
  - exact Hwf.
  - refine (conj eq_refl (conj eq_refl (conj Hag eq_refl))).
  - auto.
Qed.

Lemma install_tail_noninterference_witness :
  (journal_wf (create_w [97] 0 zero_world) /\
   agree (nbytes_used (img_jh (create_w [97] 0 zero_world))) (create_w [97] 0 zero_world)
         (pwrite_w (create_w [97] 0 zero_world) (JOURNAL_BASE + 20000) 1 (fun _ => 9))) /\
  (pc (run (-1) zero_buf 200 (install_init (create_w [97] 0 zero_world))) =
   pc (run (-1) zero_buf 200 (install_init
         (pwrite_w (create_w [97] 0 zero_world) (JOURNAL_BASE + 20000) 1 (fun _ => 9)))) /\
   ijh (run (-1) zero_buf 200 (install_init (create_w [97] 0 zero_world))) =
   ijh (run (-1) zero_buf 200 (install_init
         (pwrite_w (create_w [97] 0 zero_world) (JOURNAL_BASE + 20000) 1 (fun _ => 9)))) /\
   agree (nbytes_used (img_jh (create_w [97] 0 zero_world)))
     (iw (run (-1) zero_buf 200 (install_init (create_w [97] 0 zero_world))))
     (iw (run (-1) zero_buf 200 (install_init
         (pwrite_w (create_w [97] 0 zero_world) (JOURNAL_BASE + 20000) 1 (fun _ => 9)))))).
Proof.
  assert (Hwf : journal_wf (create_w [97] 0 zero_world))
    by (apply (wf_check_sound 10); vm_compute; reflexivity).
  assert (Hu : nbytes_used (img_jh (create_w [97] 0 zero_world)) = 16428)
    by (vm_compute; reflexivity).
  assert (Hl : len (create_w [97] 0 zero_world) = 348160) by (vm_compute; reflexivity).
  assert (Hag : agree (nbytes_used (img_jh (create_w [97] 0 zero_world)))
                  (create_w [97] 0 zero_world)
                  (pwrite_w (create_w [97] 0 zero_world) (JOURNAL_BASE + 20000) 1 (fun _ => 9))).
  { apply agree_tail_write; rewrite ?Hu, ?Hl; unfold_layout; lia. }
  split; [split; assumption|].
  exact (install_tail_noninterference (-1) zero_buf (create_w [97] 0 zero_world)
           (pwrite_w (create_w [97] 0 zero_world) (JOURNAL_BASE + 20000) 1 (fun _ => 9))
           200 Hwf Hag).
Defined.
(** * Further properties of the allocators, of create, install and main *)

(** ** Little-endian fields *)

Lemma mod_mul_split v b c :
  0 < b -> 0 < c -> v mod (b * c) = v mod b + b * ((v / b) mod c).
Proof.
  intros Hb Hc.
  pose proof (Z.div_mod v b ltac:(lia)) as E1.
  pose proof (Z.div_mod (v / b) c ltac:(lia)) as E2.
  rewrite Z.mod_eq by nia. rewrite <- Z.div_div by lia.
  rewrite (Z.mod_eq (v / b) c) by lia. rewrite (Z.mod_eq v b) by lia. nia.
Qed.

Lemma le_bytes_spec v k : 0 <= k -> le_bytes v k = (v / 2 ^ (8 * k)) mod 256.
Proof.
  intros Hk. unfold le_bytes. rewrite Z.shiftr_div_pow2 by lia.
  change 255 with (Z.ones 8). rewrite Z.land_ones by lia. reflexivity.
Qed.

Lemma get_le16_le_bytes v o :
  0 <= o -> get_le16 (le_bytes v) o = (v / 2 ^ (8 * o)) mod 2 ^ 16.
Proof.
  intros Ho. unfold get_le16, byte_at. rewrite !le_bytes_spec by lia.
  rewrite !Z.mod_mod by lia.
  replace (8 * (o + 1)) with (8 * o + 8) by lia.
  rewrite Z.pow_add_r, <- Z.div_div by lia.
  change (2 ^ 16) with (256 * 256). rewrite mod_mul_split by lia.
  change (2 ^ 8) with 256. reflexivity.
Qed.

Lemma get_le32_le_bytes v : get_le32 (le_bytes v) 0 = wrap32 v.
Proof.
  unfold get_le32, wrap32. rewrite !get_le16_le_bytes by lia.
  change (2 ^ (8 * 0)) with 1. change (2 ^ (8 * 2)) with 65536.
  rewrite Z.div_1_r. change (2 ^ 32) with (65536 * 65536).
  rewrite mod_mul_split by lia. reflexivity.
Qed.

Lemma get_le16_upd_at b o src :
  get_le16 (upd b o 2 src) o = get_le16 src 0.
Proof.
  apply get_le16_ext; unfold upd.
  - replace ((o <=? o) && (o <? o + 2)) with true by (symmetry; apply andb_true_iff; lia).
    f_equal; lia.
  - replace ((o <=? o + 1) && (o + 1 <? o + 2)) with true by (symmetry; apply andb_true_iff; lia).
    f_equal; lia.
Qed.

Lemma upd_in b o n src i : o <= i < o + n -> upd b o n src i = src (i - o).
Proof.
  intros H. unfold upd.
  replace ((o <=? i) && (i <? o + n)) with true by (symmetry; apply andb_true_iff; lia).
  reflexivity.
Qed.

Lemma upd_out b o n src i : ~ (o <= i < o + n) -> upd b o n src i = b i.
Proof.
  intros H. unfold upd. destruct ((o <=? i) && (i <? o + n)) eqn:E; [|reflexivity].
  exfalso. apply H. apply andb_true_iff in E. lia.
Qed.

Lemma get_le16_upd_in b o n src p :
  o <= p -> p + 2 <= o + n -> get_le16 (upd b o n src) p = get_le16 src (p - o).
Proof.
  intros H1 H2. apply get_le16_ext; rewrite upd_in by lia; f_equal; lia.
Qed.

Lemma get_le16_upd_out b o n src p :
  p + 2 <= o \/ o + n <= p -> get_le16 (upd b o n src) p = get_le16 b p.
Proof. intros H. apply get_le16_ext; apply upd_out; lia. Qed.

Lemma get_le32_upd_in b o n src p :
  o <= p -> p + 4 <= o + n -> get_le32 (upd b o n src) p = get_le32 src (p - o).
Proof.
  intros H1 H2. apply get_le32_ext. intros k Hk. rewrite upd_in by lia. f_equal; lia.
Qed.

Lemma get_le32_upd_out b o n src p :
  p + 4 <= o \/ o + n <= p -> get_le32 (upd b o n src) p = get_le32 b p.
Proof. intros H. apply get_le32_ext. intros k Hk. apply upd_out. lia. Qed.

Lemma get_le32_set_le32 b o v : get_le32 (set_le32 b o v) o = wrap32 v.
Proof.
  unfold set_le32. rewrite get_le32_upd_in by lia. rewrite Z.sub_diag. apply get_le32_le_bytes.
Qed.

Lemma get_le16_set_le16 b o v : get_le16 (set_le16 b o v) o = v mod 2 ^ 16.
Proof.
  unfold set_le16. rewrite get_le16_upd_in by lia. rewrite Z.sub_diag.
  rewrite get_le16_le_bytes by lia. change (2 ^ (8 * 0)) with 1. rewrite Z.div_1_r. reflexivity.
Qed.

Lemma get_le16_range b o : 0 <= get_le16 b o < 2 ^ 16.
Proof.
  unfold get_le16, byte_at.
  pose proof (Z.mod_pos_bound (b o) 256 ltac:(lia)).
  pose proof (Z.mod_pos_bound (b (o + 1)) 256 ltac:(lia)). lia.
Qed.

Lemma get_le32_range b o : 0 <= get_le32 b o < 2 ^ 32.
Proof.
  unfold get_le32. pose proof (get_le16_range b o). pose proof (get_le16_range b (o + 2)). lia.
Qed.

(** Header round trip: what create writes is what install reads back. *)
Lemma jh_bytes_decode jh :
  decode_jh (jh_bytes jh) = mkJH (wrap32 (jmagic jh)) (wrap32 (nbytes_used jh)).
Proof.
  unfold decode_jh, jh_bytes. f_equal.
  - rewrite get_le32_upd_out by lia. apply get_le32_le_bytes.
  - rewrite get_le32_upd_in by lia. apply get_le32_le_bytes.
Qed.

Lemma data_record_bytes_decode blk data :
  get_le16 (data_record_bytes blk data) 0 = REC_DATA /\
  get_le16 (data_record_bytes blk data) 2 = SIZEOF_DR /\
  get_le32 (data_record_bytes blk data) 4 = wrap32 blk /\
  (forall i, 0 <= i < BLOCK_SIZE -> data_record_bytes blk data (8 + i) = data i).
Proof.
  unfold data_record_bytes, rh_bytes, BLOCK_SIZE. split; [|split; [|split]].
  - rewrite !get_le16_upd_out by lia. rewrite get_le16_le_bytes by lia. reflexivity.
  - rewrite !get_le16_upd_out by lia. rewrite get_le16_upd_in by lia.
    rewrite get_le16_le_bytes by lia. reflexivity.
  - rewrite get_le32_upd_out by lia. rewrite get_le32_upd_in by lia. apply get_le32_le_bytes.
  - intros i Hi. rewrite upd_in by lia. f_equal. lia.
Qed.

Lemma commit_record_bytes_decode :
  get_le16 commit_record_bytes 0 = REC_COMMIT /\ get_le16 commit_record_bytes 2 = SIZEOF_CR.
Proof.
  unfold commit_record_bytes, rh_bytes. split.
  - rewrite get_le16_upd_out by lia. rewrite get_le16_le_bytes by lia. reflexivity.
  - rewrite get_le16_upd_in by lia. rewrite get_le16_le_bytes by lia. reflexivity.
Qed.

(** Bit [i] of a bitmap, tested as [free_inode] tests it. *)
Definition bit_clear (bmap : buf) (i : Z) : bool :=
  Z.land (bmap (i / 8)) (Z.shiftl 1 (i mod 8)) =? 0.

Lemma bit_clear_testbit bmap i :
  0 <= i -> bit_clear bmap i = negb (Z.testbit (bmap (i / 8)) (i mod 8)).
Proof.
  intros Hi. unfold bit_clear.
  assert (Hk : 0 <= i mod 8 < 8) by (apply Z.mod_pos_bound; lia).
  set (x := bmap (i / 8)). set (k := i mod 8).
  rewrite Z.shiftl_1_l.
  destruct (Z.testbit x k) eqn:T; cbn [negb].
  - apply Z.eqb_neq. intros H. assert (Z.testbit (Z.land x (2 ^ k)) k = false)
      by (rewrite H; apply Z.testbit_0_l).
    rewrite Z.land_spec, T, Z.pow2_bits_true in H0 by lia. discriminate.
  - apply Z.eqb_eq. apply Z.bits_inj'. intros n Hn. rewrite Z.land_spec, Z.testbit_0_l.
    rewrite Z.pow2_bits_eqb by lia. destruct (Z.eqb_spec k n); [subst; rewrite T|]; 
      apply andb_false_r || reflexivity.
Qed.

Lemma free_inode_from_spec bmap i f :
  0 <= i ->
  let r := free_inode_from bmap i f in
  (i <= r < i + Z.of_nat f /\ bit_clear bmap r = true /\
   forall j, i <= j < r -> bit_clear bmap j = false) \/
  (r = -1 /\ forall j, i <= j < i + Z.of_nat f -> bit_clear bmap j = false).
Proof.
  revert i. induction f as [|f IH]; intros i Hi; cbn [free_inode_from].
  - right. split; [reflexivity|]. intros j Hj. lia.
  - fold (bit_clear bmap i). destruct (bit_clear bmap i) eqn:B.
    + left. split; [lia|]. split; [exact B|]. intros j Hj. lia.
    + destruct (IH (i + 1) ltac:(lia)) as [[H1 [H2 H3]]|[H1 H2]].
      * left. split; [lia|]. split; [exact H2|].
        intros j Hj. destruct (Z.eq_dec j i); [subst; exact B|]. apply H3. lia.
      * right. split; [exact H1|].
        intros j Hj. destruct (Z.eq_dec j i); [subst; exact B|]. apply H2. lia.
Qed.

(** The two outcomes of [free_inode]. *)
Lemma free_inode_cases bmap :
  (0 <= free_inode bmap < 64 /\ bit_clear bmap (free_inode bmap) = true /\
   forall j, 0 <= j < free_inode bmap -> bit_clear bmap j = false) \/
  (free_inode bmap = -1 /\ forall j, 0 <= j < 64 -> bit_clear bmap j = false).
Proof. exact (free_inode_from_spec bmap 0 64 ltac:(lia)). Qed.

(** X1: [free_inode] returns the lowest inode number in [0, 64) whose bitmap
    bit is clear, or -1 when bits 0..63 are all set. *)
Theorem free_inode_spec bmap :
  (0 <= free_inode bmap < 64 /\ bit_clear bmap (free_inode bmap) = true /\
   forall j, 0 <= j < free_inode bmap -> bit_clear bmap j = false) \/
  (free_inode bmap = -1 /\ forall j, 0 <= j < 64 -> bit_clear bmap j = false).
Proof. exact (free_inode_cases bmap). Qed.

(** A directory slot is free when the first byte of its name is 0. *)
Definition slot_free (d : buf) (i : Z) : bool := d (i * SIZEOF_DIRENT + 4) =? 0.

Lemma free_dirent_from_spec d i f :
  let r := free_dirent_from d i f in
  (i <= r < i + Z.of_nat f /\ slot_free d r = true /\
   forall j, i <= j < r -> slot_free d j = false) \/
  (r = -1 /\ forall j, i <= j < i + Z.of_nat f -> slot_free d j = false).
Proof.
  revert i. induction f as [|f IH]; intros i; cbn [free_dirent_from].
  - right. split; [reflexivity|]. intros j Hj. lia.
  - fold (slot_free d i). destruct (slot_free d i) eqn:B.
    + left. split; [lia|]. split; [exact B|]. intros j Hj. lia.
    + destruct (IH (i + 1)) as [[H1 [H2 H3]]|[H1 H2]].
      * left. split; [lia|]. split; [exact H2|].
        intros j Hj. destruct (Z.eq_dec j i); [subst; exact B|]. apply H3. lia.
      * right. split; [exact H1|].
        intros j Hj. destruct (Z.eq_dec j i); [subst; exact B|]. apply H2. lia.
Qed.

(** X2: [free_dirent] returns the lowest of the 128 slots of the root directory
    block whose [name[0]] is 0, or -1 when none is. *)
Theorem free_dirent_spec d :
  (0 <= free_dirent d < 128 /\ slot_free d (free_dirent d) = true /\
   forall j, 0 <= j < free_dirent d -> slot_free d j = false) \/
  (free_dirent d = -1 /\ forall j, 0 <= j < 128 -> slot_free d j = false).
Proof. exact (free_dirent_from_spec d 0 128). Qed.

Lemma div8_mod8_inj a b :
  0 <= a -> 0 <= b -> a / 8 = b / 8 -> a mod 8 = b mod 8 -> a = b.
Proof.
  intros Ha Hb H1 H2. rewrite (Z.div_mod a 8), (Z.div_mod b 8) by lia. lia.
Qed.

(** Bit [j] after [set_bitmap bmap index]. *)
Lemma set_bitmap_bit bmap index j :
  0 <= index -> 0 <= j ->
  bit_clear (set_bitmap bmap index) j = bit_clear bmap j && negb (j =? index).
Proof.
  intros Hi Hj. rewrite !bit_clear_testbit by lia. unfold set_bitmap.
  destruct (Z.eq_dec (j / 8) (index / 8)) as [E|E].
  - rewrite upd_in by lia. rewrite E. rewrite Z.lor_spec, Z.shiftl_1_l.
    assert (Hj8 : 0 <= j mod 8 < 8) by (apply Z.mod_pos_bound; lia).
    rewrite Z.pow2_bits_eqb by (apply Z.mod_pos_bound; lia).
    destruct (Z.eqb_spec (index mod 8) (j mod 8)) as [M|M].
    + rewrite (div8_mod8_inj j index) by lia. rewrite Z.eqb_refl, orb_true_r; cbn [negb]; rewrite andb_false_r. reflexivity.
    + replace (j =? index) with false by (symmetry; apply Z.eqb_neq; intros ->; apply M; reflexivity).
      rewrite orb_false_r, andb_true_r. reflexivity.
  - rewrite upd_out by lia.
    replace (j =? index) with false by (symmetry; apply Z.eqb_neq; intros ->; apply E; reflexivity).
    rewrite andb_true_r. reflexivity.
Qed.

(** X3: [set_bitmap] sets bit [index] and no other bit of the bitmap. *)
Theorem set_bitmap_spec bmap index j :
  0 <= index -> 0 <= j ->
  bit_clear (set_bitmap bmap index) j = bit_clear bmap j && negb (j =? index).
Proof. intros Hi Hj. exact (set_bitmap_bit bmap index j Hi Hj). Qed.

Lemma set_bitmap_other_bytes bmap index p :
  p <> index / 8 -> set_bitmap bmap index p = bmap p.
Proof. intros H. unfold set_bitmap. apply upd_out. lia. Qed.

(** X4: Allocating the inode [free_inode] returns and asking again never gives
    the same inode: the next answer is -1 or a larger inode number. *)
Theorem free_inode_after_set bmap :
  0 <= free_inode bmap ->
  free_inode (set_bitmap bmap (free_inode bmap)) = -1 \/
  free_inode bmap < free_inode (set_bitmap bmap (free_inode bmap)).
Proof.
  intros H0. set (i := free_inode bmap).
  assert (Hlow : forall j, 0 <= j <= i -> bit_clear (set_bitmap bmap i) j = false).
  { intros j Hj. rewrite set_bitmap_bit by lia.
    destruct (Z.eq_dec j i) as [->|Ne]; [rewrite Z.eqb_refl, andb_false_r; reflexivity|].
    destruct (free_inode_cases bmap) as [[_ [_ H3]]|[H1 _]]; [|unfold i in *; lia].
    rewrite H3 by (unfold i in *; lia). reflexivity. }
  destruct (free_inode_cases (set_bitmap bmap i)) as [[H1 [H2 _]]|[H1 _]]; [|left; exact H1].
  right. destruct (Z.le_gt_cases (free_inode (set_bitmap bmap i)) i) as [Hle|Hgt]; [|exact Hgt].
  rewrite Hlow in H2 by lia. discriminate.
Qed.

Lemma wrap32_idem x : wrap32 (wrap32 x) = wrap32 x.
Proof. unfold wrap32. apply Z.mod_mod. lia. Qed.

(** X5: [set_dirent] stores the inode number in the slot's [inode] field and
    writes nothing outside the first 31 bytes of the slot. *)
Theorem set_dirent_spec d slot inode_idx name :
  get_le32 (set_dirent d slot inode_idx name) (slot * SIZEOF_DIRENT) = wrap32 inode_idx /\
  (forall p, ~ (slot * SIZEOF_DIRENT <= p < slot * SIZEOF_DIRENT + 31) ->
             set_dirent d slot inode_idx name p = d p).
Proof.
  unfold set_dirent. split.
  - rewrite get_le32_upd_out by lia. rewrite get_le32_set_le32. unfold wrap32. apply Z.mod_mod. lia.
  - intros p Hp. unfold set_le32. rewrite !upd_out by lia. reflexivity.
Qed.

(** Field reads of the inode [k] of an inode-table block. *)
Definition ino_type (blk : buf) (k : Z) : Z := get_le16 blk (k * INODE_SIZE).
Definition ino_links (blk : buf) (k : Z) : Z := get_le16 blk (k * INODE_SIZE + 2).
Definition ino_size (blk : buf) (k : Z) : Z := get_le32 blk (k * INODE_SIZE + 4).
Definition ino_direct (blk : buf) (k j : Z) : Z := get_le32 blk (k * INODE_SIZE + 8 + 4 * j).
Definition ino_ctime (blk : buf) (k : Z) : Z := get_le32 blk (k * INODE_SIZE + 40).
Definition ino_mtime (blk : buf) (k : Z) : Z := get_le32 blk (k * INODE_SIZE + 44).

(** X6: [init_inode] makes inode [k] a fresh file inode: type 1, one link, size
    0, no direct blocks, both times [now] truncated to 32 bits, padding zero;
    the other bytes of the block are unchanged. *)
Theorem init_inode_spec blk k now :
  let b := init_inode blk k now in
  ino_type b k = 1 /\ ino_links b k = 1 /\ ino_size b k = 0 /\
  (forall j, 0 <= j < 8 -> ino_direct b k j = 0) /\
  ino_ctime b k = wrap32 now /\ ino_mtime b k = wrap32 now /\
  (forall p, 48 <= p < INODE_SIZE -> b (k * INODE_SIZE + p) = 0) /\
  (forall p, ~ (k * INODE_SIZE <= p < k * INODE_SIZE + INODE_SIZE) -> b p = blk p).
Proof.
  cbv zeta. unfold init_inode, ino_type, ino_links, ino_size, ino_direct, ino_ctime, ino_mtime,
    set_le32, set_le16, INODE_SIZE.
  set (o := k * 128).
  assert (Zr : forall p, 0 <= p -> p + 4 <= 128 -> get_le32 (upd blk o 128 zero_buf) (o + p) = 0).
  { intros p H1 H2. rewrite get_le32_upd_in by lia. reflexivity. }
  split; [|split; [|split; [|split; [|split; [|split; [|split]]]]]].
  - rewrite !get_le16_upd_out by lia. rewrite get_le16_upd_in by lia.
    replace (o - o) with 0 by lia. rewrite get_le16_le_bytes by lia. reflexivity.
  - rewrite !get_le16_upd_out by lia. rewrite get_le16_upd_in by lia.
    replace (o + 2 - (o + 2)) with 0 by lia. rewrite get_le16_le_bytes by lia. reflexivity.
  - rewrite !get_le32_upd_out by lia. rewrite get_le32_upd_in by lia. reflexivity.
  - intros j Hj. rewrite !get_le32_upd_out by lia. rewrite get_le32_upd_in by lia. reflexivity.
  - rewrite get_le32_upd_in by lia. replace (o + 40 - (o + 40)) with 0 by lia.
    rewrite get_le32_le_bytes. apply wrap32_idem.
  - rewrite get_le32_upd_out by lia. rewrite get_le32_upd_in by lia.
    replace (o + 44 - (o + 44)) with 0 by lia.
    rewrite get_le32_le_bytes. apply wrap32_idem.
  - intros p Hp. rewrite !upd_out by lia. rewrite upd_in by lia. reflexivity.
  - intros p Hp. rewrite !upd_out by lia. reflexivity.
Qed.

(** X7: the size update of create ([grow_root]) sets the size field of the
    first inode of the inode-table block it is given (the root inode only
    when that block is block 19) to the larger of its old value and
    [(slot + 1) * 32] (as 32-bit values) and changes no other byte. *)
Theorem grow_root_spec ino_blk slot :
  ino_size (grow_root ino_blk slot) 0 =
    Z.max (ino_size ino_blk 0) (wrap32 ((slot + 1) * SIZEOF_DIRENT)) /\
  (forall p, ~ (4 <= p < 8) -> grow_root ino_blk slot p = ino_blk p).
Proof.
  unfold grow_root, ino_size. change (0 * INODE_SIZE + 4) with 4.
  destruct (Z.ltb_spec (get_le32 ino_blk 4) (wrap32 ((slot + 1) * SIZEOF_DIRENT))) as [Hl|Hl].
  - split.
    + rewrite get_le32_set_le32. unfold wrap32 in *. rewrite Z.mod_mod by lia. lia.
    + intros p Hp. unfold set_le32. apply upd_out. lia.
  - split; [lia|reflexivity].
Qed.

(** ** Installing a committed transaction *)

(** [recs_at w off recs]: from journal offset [off] the image holds one data
    record per [(block, data)] of [recs], back to back, then a commit record. *)
Fixpoint recs_at (w : world) (off : Z) (recs : list (Z * buf)) : Prop :=
  match recs with
  | [] => rec_type_at w off = REC_COMMIT /\ rec_size_at w off = SIZEOF_CR
  | (b, d) :: r =>
      rec_type_at w off = REC_DATA /\ rec_size_at w off = SIZEOF_DR /\
      rec_block_at w off = b /\
      (forall i, 0 <= i < BLOCK_SIZE -> img w (JOURNAL_BASE + off + 8 + i) = d i) /\
      recs_at w (off + SIZEOF_DR) r
  end.

(** Bytes of a transaction: its data records and its commit record. *)
Definition tx_bytes (recs : list (Z * buf)) : Z := SIZEOF_DR * Z.of_nat (length recs) + SIZEOF_CR.

(** The block writes of a transaction, in order. *)
Fixpoint apply_recs (w : world) (recs : list (Z * buf)) : world :=
  match recs with
  | [] => w
  | (b, d) :: r => apply_recs (pwrite_w w (b * BLOCK_SIZE) BLOCK_SIZE d) r
  end.

(** The block of a record lies outside the journal region. *)
Definition outside_journal (b : Z) : Prop := b = 0 \/ INODE_BMAP_IDX <= b.

Definition same_img (w1 w2 : world) : Prop :=
  len w1 = len w2 /\ forall x, img w1 x = img w2 x.

Lemma same_img_pwrite w1 w2 p n d1 d2 :
  same_img w1 w2 -> (forall i, 0 <= i < n -> d1 i = d2 i) ->
  same_img (pwrite_w w1 p n d1) (pwrite_w w2 p n d2).
Proof.
  intros [Hl Hi] Hd. unfold pwrite_w, upd. split; cbn [img len]; [rewrite Hl; reflexivity|].
  intros x. destruct ((p <=? x) && (x <? p + n)) eqn:E; [|apply Hi].
  apply Hd. apply andb_true_iff in E. lia.
Qed.

Lemma same_img_apply w1 w2 recs :
  same_img w1 w2 -> same_img (apply_recs w1 recs) (apply_recs w2 recs).
Proof.
  revert w1 w2. induction recs as [|[b d] r IH]; intros w1 w2 H; [exact H|].
  cbn [apply_recs]. apply IH, same_img_pwrite; auto.
Qed.

Lemma len_apply w recs : len w <= len (apply_recs w recs).
Proof.
  revert w. induction recs as [|[b d] r IH]; intros w; [cbn; lia|].
  cbn [apply_recs]. specialize (IH (pwrite_w w (b * BLOCK_SIZE) BLOCK_SIZE d)).
  pose proof (pwrite_len w (b * BLOCK_SIZE) BLOCK_SIZE d). lia.
Qed.

Lemma rec_fields_frame w w' off :
  (forall x, JOURNAL_BASE + off <= x < JOURNAL_BASE + off + SIZEOF_RH -> img w' x = img w x) ->
  rec_type_at w' off = rec_type_at w off /\ rec_size_at w' off = rec_size_at w off.
Proof.
  intros H. unfold rec_type_at, rec_size_at, SIZEOF_RH in *.
  split; apply get_le16_ext; apply H; lia.
Qed.

Lemma recs_at_frame w w' off recs :
  (forall x, JOURNAL_BASE + off <= x < JOURNAL_BASE + off + tx_bytes recs -> img w' x = img w x) ->
  recs_at w off recs -> recs_at w' off recs.
Proof.
  revert off. induction recs as [|[b d] r IH]; intros off Hx H; cbn [recs_at] in *.
  - unfold tx_bytes in Hx. cbn [length Z.of_nat] in Hx.
    destruct (rec_fields_frame w w' off) as [E1 E2];
      [intros x Hx'; apply Hx; unfold SIZEOF_RH, SIZEOF_CR, SIZEOF_DR in *; lia|].
    rewrite E1, E2. exact H.
  - unfold tx_bytes in Hx. cbn [length] in Hx. rewrite Nat2Z.inj_succ in Hx.
    destruct H as [H1 [H2 [H3 [H4 H5]]]].
    destruct (rec_fields_frame w w' off) as [E1 E2];
      [intros x Hx'; apply Hx; unfold SIZEOF_RH, SIZEOF_CR, SIZEOF_DR in *; lia|].
    rewrite E1, E2. split; [exact H1|]. split; [exact H2|]. split.
    + rewrite <- H3. unfold rec_block_at. apply get_le32_ext. intros k Hk. apply Hx.
      unfold SIZEOF_CR, SIZEOF_DR in *. lia.
    + split.
      * intros i Hi. rewrite <- H4 by exact Hi. apply Hx. unfold BLOCK_SIZE, SIZEOF_CR, SIZEOF_DR in *. lia.
      * apply IH; [|exact H5]. intros x Hx'. apply Hx. unfold tx_bytes in *.
        unfold SIZEOF_CR, SIZEOF_DR in *. lia.
Qed.

Lemma pwrite_block_outside w b d x :
  outside_journal b -> JOURNAL_BASE <= x < JOURNAL_BASE + JOURNAL_BYTES ->
  img (pwrite_w w (b * BLOCK_SIZE) BLOCK_SIZE d) x = img w x.
Proof.
  intros Hb Hx. unfold pwrite_w; cbn [img]. apply upd_out.
  unfold outside_journal in Hb. unfold_layout. lia.
Qed.

Lemma tx_bytes_cons b d r : tx_bytes ((b, d) :: r) = SIZEOF_DR + tx_bytes r.
Proof. unfold tx_bytes. cbn [length]. rewrite Nat2Z.inj_succ. lia. Qed.

Lemma tx_bytes_pos r : SIZEOF_CR <= tx_bytes r.
Proof. unfold tx_bytes. unfold SIZEOF_DR. lia. Qed.

(** The commit search walks over the data records to the commit record. *)
Lemma scan_recs cap stale jh w st c recs off :
  recs_at w off recs -> 0 <= off -> off + tx_bytes recs <= nbytes_used jh ->
  nbytes_used jh <= JOURNAL_BYTES -> JOURNAL_BASE + JOURNAL_BYTES <= len w ->
  run cap stale (S (length recs)) (mkI (IScan st off c) jh w) =
    mkI (IApply st (off + tx_bytes recs) c) jh w.
Proof.
  revert off. induction recs as [|[b d] r IH]; intros off H Hoff HU HJ Hlen; cbn [recs_at] in H.
  - destruct H as [Ht Hs]. cbn [length]. rewrite run_S. cbn [run].
    unfold tx_bytes in *. cbn [length Z.of_nat] in *.
    unfold step; cbn [pc ijh iw].
    replace (off <? nbytes_used jh) with true by (symmetry; apply Z.ltb_lt; unfold SIZEOF_CR in *; lia).
    rewrite preads_true by (unfold SIZEOF_RH, SIZEOF_CR, SIZEOF_DR in *; unfold_layout; lia).
    rewrite Ht, Hs. rewrite wrap32_small by (unfold SIZEOF_CR in *; unfold_layout; lia).
    cbn. reflexivity.
  - destruct H as [H1 [H2 [_ [_ H5]]]]. rewrite tx_bytes_cons in *.
    pose proof (tx_bytes_pos r).
    cbn [length]. rewrite run_S.
    assert (E : step cap stale (mkI (IScan st off c) jh w) =
                mkI (IScan st (off + SIZEOF_DR) c) jh w).
    { unfold step; cbn [pc ijh iw].
      replace (off <? nbytes_used jh) with true
        by (symmetry; apply Z.ltb_lt; unfold SIZEOF_CR, SIZEOF_DR in *; lia).
      rewrite preads_true by (unfold SIZEOF_RH, SIZEOF_CR, SIZEOF_DR in *; unfold_layout; lia).
      rewrite H1, H2. rewrite wrap32_small by (unfold SIZEOF_CR, SIZEOF_DR in *; unfold_layout; lia).
      reflexivity. }
    rewrite E. rewrite IH; [rewrite Z.add_assoc; reflexivity|exact H5|unfold SIZEOF_DR; lia|lia|exact HJ|exact Hlen].
Qed.

Lemma same_img_refl w : same_img w w.
Proof. split; reflexivity. Qed.

Lemma same_img_trans w1 w2 w3 : same_img w1 w2 -> same_img w2 w3 -> same_img w1 w3.
Proof. intros [H1 H2] [H3 H4]. split; [congruence|]. intros x. rewrite H2. apply H4. Qed.

Lemma same_img_reset jh w1 w2 : same_img w1 w2 -> same_img (reset_world jh w1) (reset_world jh w2).
Proof. intros H. unfold reset_world. apply same_img_pwrite; auto. Qed.

(** The apply loop writes the records' blocks in order. *)
Lemma apply_recs_run cap stale jh recs : forall w st T c,
  recs_at w st recs -> 0 <= st -> st + tx_bytes recs = T -> T <= JOURNAL_BYTES ->
  JOURNAL_BASE + JOURNAL_BYTES <= len w ->
  Forall (fun bd => outside_journal (fst bd)) recs ->
  exists n w', run cap stale n (mkI (IApply st T c) jh w) = mkI (IOuter T (c + 1)) jh w' /\
               same_img w' (apply_recs w recs).
Proof.
  induction recs as [|[b d] r IH]; intros w st T c H Hst HT HJ Hlen Hout; cbn [recs_at] in H.
  - destruct H as [Ht Hs]. unfold tx_bytes in HT. cbn [length Z.of_nat] in HT.
    exists 2%nat, w. split; [|apply same_img_refl].
    rewrite run_S.
    assert (E : step cap stale (mkI (IApply st T c) jh w) = mkI (IApply T T c) jh w).
    { unfold step; cbn [pc ijh iw].
      replace (st <? T) with true by (symmetry; apply Z.ltb_lt; unfold SIZEOF_CR in *; lia).
      rewrite preads_true by (unfold SIZEOF_RH, SIZEOF_CR in *; unfold_layout; lia).
      rewrite Ht, Hs. rewrite wrap32_small by (unfold SIZEOF_CR in *; unfold_layout; lia).
      cbn. replace (st + SIZEOF_CR) with T by lia. reflexivity. }
    rewrite E, run_S. unfold step at 1; cbn [pc ijh iw]. rewrite Z.ltb_irrefl. reflexivity.
  - destruct H as [H1 [H2 [H3 [H4 H5]]]]. apply Forall_cons_iff in Hout as [Hb Hout'].
    cbn [fst] in Hb. subst T. rewrite tx_bytes_cons in HJ.
    pose proof (tx_bytes_pos r).
    set (dr := upd stale 0 (rec_size_at w st) (fun i => img w (JOURNAL_BASE + st + i))).
    set (w2 := pwrite_w w (get_le32 dr 4 * BLOCK_SIZE) BLOCK_SIZE (fun i => dr (8 + i))).
    assert (Hblk : get_le32 dr 4 = b) by (unfold dr; rewrite dr_block by exact H2; exact H3).
    assert (E : step cap stale (mkI (IApply st (st + tx_bytes ((b, d) :: r)) c) jh w) =
                mkI (IApply (st + SIZEOF_DR) (st + tx_bytes ((b, d) :: r)) c) jh w2).
    { unfold step; cbn [pc ijh iw]. rewrite tx_bytes_cons.
      replace (st <? st + (SIZEOF_DR + tx_bytes r)) with true
        by (symmetry; apply Z.ltb_lt; unfold SIZEOF_CR, SIZEOF_DR in *; lia).
      rewrite preads_true by (unfold SIZEOF_RH, SIZEOF_CR, SIZEOF_DR in *; unfold_layout; lia).
      rewrite H1. cbn [Z.eqb Pos.eqb REC_DATA].
      rewrite (preads_true w _ (rec_size_at w st))
        by (rewrite H2; unfold SIZEOF_CR, SIZEOF_DR in *; unfold_layout; lia).
      fold dr. fold w2. rewrite H2.
      rewrite wrap32_small by (unfold SIZEOF_CR, SIZEOF_DR in *; unfold_layout; lia).
      reflexivity. }
    assert (Hw2 : same_img w2 (pwrite_w w (b * BLOCK_SIZE) BLOCK_SIZE d)).
    { unfold w2. rewrite Hblk. apply same_img_pwrite; [apply same_img_refl|].
      intros i Hi. unfold dr. rewrite upd_in by (rewrite H2; unfold SIZEOF_DR, BLOCK_SIZE in *; lia).
      rewrite <- H4 by exact Hi. f_equal. lia. }
    assert (Hrec : recs_at w2 (st + SIZEOF_DR) r).
    { apply (recs_at_frame w); [|exact H5]. intros x Hx. unfold w2. rewrite Hblk.
      apply pwrite_block_outside; [exact Hb|]. unfold SIZEOF_DR, SIZEOF_CR in *. unfold_layout. lia. }
    destruct (IH w2 (st + SIZEOF_DR) (st + tx_bytes ((b, d) :: r)) c Hrec) as [n [w' [Hrun Hs]]].
    + unfold SIZEOF_DR. lia.
    + rewrite tx_bytes_cons. lia.
    + rewrite tx_bytes_cons. lia.
    + pose proof (pwrite_len w (get_le32 dr 4 * BLOCK_SIZE) BLOCK_SIZE (fun i => dr (8 + i))).
      fold w2 in H0. lia.
    + exact Hout'.
    + exists (S n), w'. split.
      * rewrite run_S, E. exact Hrun.
      * cbn [apply_recs]. eapply same_img_trans; [exact Hs|]. apply same_img_apply, Hw2.
Qed.

(** The run of [install_journal] over one committed transaction. *)
Lemma install_applies_tx_run cap stale w recs :
  cap <> 0 ->
  img_jh w = mkJH JOURNAL_MAGIC (SIZEOF_JH + tx_bytes recs) ->
  SIZEOF_JH + tx_bytes recs <= JOURNAL_BYTES ->
  JOURNAL_BASE + JOURNAL_BYTES <= len w ->
  recs_at w SIZEOF_JH recs ->
  Forall (fun bd => outside_journal (fst bd)) recs ->
  exists n w', run cap stale n (install_init w) = mkI (IDone 1) (mkJH JOURNAL_MAGIC SIZEOF_JH) w' /\
               same_img w' (reset_world (img_jh w) (apply_recs w recs)).
Proof.
  intros Hcap Hjh HJ Hlen Hrec Hout.
  pose proof (tx_bytes_pos recs).
  set (U := SIZEOF_JH + tx_bytes recs) in *.
  assert (E1 : run cap stale 2 (install_init w) = mkI (IScan 8 8 0) (img_jh w) w).
  { rewrite run_S. unfold step at 1, install_init; cbn [pc ijh iw].
    rewrite preads_true by (unfold_layout; lia). fold (img_jh w). rewrite Hjh.
    cbn [jmagic nbytes_used]. rewrite Z.eqb_refl.
    replace (U <=? SIZEOF_JH) with false by (symmetry; apply Z.leb_gt; unfold U, SIZEOF_CR in *; lia).
    cbn [negb orb]. rewrite run_S. unfold step at 1; cbn [pc ijh iw jmagic nbytes_used].
    replace (SIZEOF_JH <? U) with true by (symmetry; apply Z.ltb_lt; unfold U, SIZEOF_CR in *; lia).
    replace ((cap <? 0) || (0 <? cap)) with true
      by (symmetry; destruct (Z.ltb_spec cap 0); [reflexivity|]; apply Z.ltb_lt; lia).
    cbn [andb run]. rewrite <- Hjh. reflexivity. }
  assert (E2 : run cap stale (S (length recs)) (mkI (IScan 8 8 0) (img_jh w) w) =
               mkI (IApply 8 U 0) (img_jh w) w).
  { apply scan_recs; [exact Hrec|lia| | |exact Hlen]; rewrite Hjh; cbn [nbytes_used]; assert (U = 8 + tx_bytes recs) by reflexivity; lia. }
  destruct (apply_recs_run cap stale (img_jh w) recs w 8 U 0 Hrec ltac:(lia) eq_refl HJ Hlen Hout)
    as [n [w' [E3 Hs]]].
  exists (2 + (S (length recs) + (n + 2)))%nat, (reset_world (img_jh w) w'). split.
  - rewrite !run_add, E1, E2, E3. rewrite Hjh. rewrite run_S. unfold step at 1;
      cbn [pc ijh iw nbytes_used].
    rewrite Z.ltb_irrefl. cbn [andb]. rewrite run_S. unfold step at 1; cbn [pc ijh iw jmagic].
    cbn [run]. reflexivity.
  - apply same_img_reset, Hs.
Qed.

(** X8: [install_journal] with a cap other than 0, on a journal holding
    exactly one committed transaction from offset 8 whose data records are
    4104 bytes long and target block 0 or blocks from 17 up, returns having
    applied one transaction, with the image of writing each record's block in
    record order and then resetting bytes-used to 8. *)
Theorem install_applies_tx cap stale w recs :
  cap <> 0 ->
  img_jh w = mkJH JOURNAL_MAGIC (SIZEOF_JH + tx_bytes recs) ->
  SIZEOF_JH + tx_bytes recs <= JOURNAL_BYTES ->
  JOURNAL_BASE + JOURNAL_BYTES <= len w ->
  recs_at w SIZEOF_JH recs ->
  Forall (fun bd => outside_journal (fst bd)) recs ->
  exists n w', run cap stale n (install_init w) = mkI (IDone 1) (mkJH JOURNAL_MAGIC SIZEOF_JH) w' /\
               same_img w' (reset_world (img_jh w) (apply_recs w recs)).
Proof.
  intros Hcap Hjh HJ Hlen Hrec Hout.
  exact (install_applies_tx_run cap stale w recs Hcap Hjh HJ Hlen Hrec Hout).
Qed.

(** The image a successful create leaves, when the journal it appends to is
    empty (invalid magic, or bytes-used 8). *)
Lemma create_journal_image name now w :
  TOTAL_BLOCKS * BLOCK_SIZE <= len w ->
  start_off w = SIZEOF_JH ->
  0 <= free_inode (block_img w INODE_BMAP_IDX) ->
  0 <= free_dirent (block_img w DATA_START_IDX) ->
  let i := free_inode (block_img w INODE_BMAP_IDX) in
  let s := free_dirent (block_img w DATA_START_IDX) in
  let iblk := INODE_START_IDX + i / (BLOCK_SIZE / INODE_SIZE) in
  create_journal name now w = Ret tt
    (fsync_w
      (pwrite_w
        (pwrite_w
          (pwrite_w
            (pwrite_w
              (pwrite_w
                (pwrite_w w (JOURNAL_BASE + 8) SIZEOF_DR
                   (data_record_bytes INODE_BMAP_IDX (set_bitmap (block_img w INODE_BMAP_IDX) i)))
                (JOURNAL_BASE + 4112) SIZEOF_DR
                (data_record_bytes DATA_BMAP_IDX (block_img w DATA_BMAP_IDX)))
              (JOURNAL_BASE + 8216) SIZEOF_DR
              (data_record_bytes DATA_START_IDX (set_dirent (block_img w DATA_START_IDX) s i name)))
            (JOURNAL_BASE + 12320) SIZEOF_DR
            (data_record_bytes iblk
               (grow_root (init_inode (block_img w iblk) (i mod (BLOCK_SIZE / INODE_SIZE)) now) s)))
          (JOURNAL_BASE + 16424) SIZEOF_CR commit_record_bytes)
        JOURNAL_BASE SIZEOF_JH (jh_bytes (mkJH JOURNAL_MAGIC 16428)))).
Proof.
  intros Hlen Hst Hi Hs i s iblk.
  assert (Hi64 : i < 64) by (apply free_inode_range; exact Hi).
  assert (Hiblk : 19 <= iblk <= 20).
  { unfold iblk, INODE_START_IDX, DATA_BMAP_IDX, INODE_BMAP_IDX, JOURNAL_BLOCK_IDX,
      JOURNAL_BLOCKS, BLOCK_SIZE, INODE_SIZE.
    change (4096 / 128) with 32.
    assert (0 <= i / 32) by (apply Z.div_pos; lia).
    assert (i / 32 < 2) by (apply Z.div_lt_upper_bound; lia).
    lia. }
  unfold create_journal, bind, read_block, journal_read, sys_pread.
  do 3 (rewrite preads_true by (unfold_layout; lia); cbv beta iota).
  fold (block_img w INODE_BMAP_IDX) (block_img w DATA_BMAP_IDX) (block_img w DATA_START_IDX).
  fold i s.
  replace ((i <? 0) || (s <? 0)) with false by (symmetry; apply orb_false_iff; split; apply Z.ltb_ge; lia).
  cbv beta iota. fold iblk.
  do 2 (rewrite preads_true by (unfold_layout; lia); cbv beta iota).
  fold (block_img w iblk).
  change (decode_jh (fun i0 => img w (JOURNAL_BASE + 0 + i0))) with (img_jh w).
  unfold start_off in Hst.
  destruct (jmagic (img_jh w) =? JOURNAL_MAGIC) eqn:Hm; cbn [negb jmagic nbytes_used].
  - apply Z.eqb_eq in Hm. rewrite Hm, Hst. reflexivity.
  - reflexivity.
Qed.

Lemma img_jh_eq w :
  img_jh w = mkJH (get_le32 (img w) JOURNAL_BASE) (get_le32 (img w) (JOURNAL_BASE + 4)).
Proof.
  unfold img_jh, decode_jh. f_equal; apply get_le32_ext; intros k Hk; f_equal; lia.
Qed.

Ltac upd_chain :=
  repeat (first [ rewrite get_le16_upd_out by (unfold_layout; lia)
                | rewrite get_le32_upd_out by (unfold_layout; lia)
                | rewrite upd_out by (unfold_layout; lia) ]).

(** X9: A create on an image with an empty journal, followed by an install (any
    cap but 0), leaves the inode bitmap, the root directory block and the
    inode-table block holding the new inode as create built them, the data
    bitmap as it was, and bytes-used back at 8; no byte outside the journal
    and these four blocks changes. *)
Theorem create_then_install cap stale name now w :
  cap <> 0 ->
  TOTAL_BLOCKS * BLOCK_SIZE <= len w ->
  start_off w = SIZEOF_JH ->
  0 <= free_inode (block_img w INODE_BMAP_IDX) ->
  0 <= free_dirent (block_img w DATA_START_IDX) ->
  let i := free_inode (block_img w INODE_BMAP_IDX) in
  let s := free_dirent (block_img w DATA_START_IDX) in
  let iblk := INODE_START_IDX + i / (BLOCK_SIZE / INODE_SIZE) in
  exists n w2,
    run cap stale n (install_init (create_w name now w)) =
      mkI (IDone 1) (mkJH JOURNAL_MAGIC SIZEOF_JH) w2 /\
    img_jh w2 = mkJH JOURNAL_MAGIC SIZEOF_JH /\
    (forall p, 0 <= p < BLOCK_SIZE ->
       block_img w2 INODE_BMAP_IDX p = set_bitmap (block_img w INODE_BMAP_IDX) i p /\
       block_img w2 DATA_BMAP_IDX p = block_img w DATA_BMAP_IDX p /\
       block_img w2 DATA_START_IDX p = set_dirent (block_img w DATA_START_IDX) s i name p /\
       block_img w2 iblk p =
         grow_root (init_inode (block_img w iblk) (i mod (BLOCK_SIZE / INODE_SIZE)) now) s p) /\
    (forall x, ~ (JOURNAL_BASE <= x < JOURNAL_BASE + JOURNAL_BYTES) ->
       (forall b, In b [INODE_BMAP_IDX; DATA_BMAP_IDX; DATA_START_IDX; iblk] ->
          ~ (b * BLOCK_SIZE <= x < b * BLOCK_SIZE + BLOCK_SIZE)) ->
       img w2 x = img w x).
Proof.
  intros Hcap Hlen Hst Hi Hs i s iblk.
  assert (Hi64 : i < 64) by (apply free_inode_range; exact Hi).
  assert (Hiblk : 19 <= iblk <= 20).
  { unfold iblk, INODE_START_IDX, DATA_BMAP_IDX, INODE_BMAP_IDX, JOURNAL_BLOCK_IDX,
      JOURNAL_BLOCKS, BLOCK_SIZE, INODE_SIZE.
    change (4096 / 128) with 32.
    assert (0 <= i / 32) by (apply Z.div_pos; lia).
    assert (i / 32 < 2) by (apply Z.div_lt_upper_bound; lia).
    lia. }
  pose proof (create_journal_image name now w Hlen Hst Hi Hs) as Hc. cbv zeta in Hc.
  fold i s iblk in Hc.
  set (B1 := set_bitmap (block_img w INODE_BMAP_IDX) i) in *.
  set (B2 := block_img w DATA_BMAP_IDX) in *.
  set (B3 := set_dirent (block_img w DATA_START_IDX) s i name) in *.
  set (B4 := grow_root (init_inode (block_img w iblk) (i mod (BLOCK_SIZE / INODE_SIZE)) now) s) in *.
  unfold create_w. rewrite Hc. cbn [final_world].
  set (W1 := fsync_w _).
  set (recs := [(INODE_BMAP_IDX, B1); (DATA_BMAP_IDX, B2); (DATA_START_IDX, B3); (iblk, B4)]).
  assert (Htx : tx_bytes recs = 16420) by reflexivity.
  assert (Hjh : img_jh W1 = mkJH JOURNAL_MAGIC (SIZEOF_JH + tx_bytes recs)).
  { rewrite Htx, img_jh_eq. unfold W1. cbn [img fsync_w pwrite_w].
    rewrite !get_le32_upd_in by (unfold_layout; lia).
    replace (JOURNAL_BASE - JOURNAL_BASE) with 0 by lia.
    replace (JOURNAL_BASE + 4 - JOURNAL_BASE) with 4 by lia.
    pose proof (jh_bytes_decode (mkJH JOURNAL_MAGIC 16428)) as E. unfold decode_jh in E.
    rewrite E. reflexivity. }
  pose proof (data_record_bytes_decode INODE_BMAP_IDX B1) as D1.
  pose proof (data_record_bytes_decode DATA_BMAP_IDX B2) as D2.
  pose proof (data_record_bytes_decode DATA_START_IDX B3) as D3.
  pose proof (data_record_bytes_decode iblk B4) as D4.
  pose proof commit_record_bytes_decode as D5.
  assert (Hrec : recs_at W1 SIZEOF_JH recs).
  { unfold recs. cbn [recs_at]. unfold rec_type_at, rec_size_at, rec_block_at, W1.
    cbn [img fsync_w pwrite_w].
    repeat split; try (intros ? ?); upd_chain;
      first [ rewrite get_le16_upd_in by (unfold_layout; lia)
            | rewrite get_le32_upd_in by (unfold_layout; lia)
            | rewrite upd_in by (unfold_layout; lia) ].
    all: match goal with
         | |- get_le32 _ (?x - ?y) = _ =>
             replace (x - y) with 4 by (unfold_layout; lia);
             rewrite (proj1 (proj2 (proj2 D4))); apply wrap32_small; lia
         | |- _ (?x - ?y) = _ ?j =>
             replace (x - y) with (8 + j) by (unfold_layout; lia);
             first [ apply (proj2 (proj2 (proj2 D1)))
                   | apply (proj2 (proj2 (proj2 D2)))
                   | apply (proj2 (proj2 (proj2 D3)))
                   | apply (proj2 (proj2 (proj2 D4))) ]; assumption
         end. }
  assert (Hlen1 : JOURNAL_BASE + JOURNAL_BYTES <= len W1).
  { assert (len w <= len W1).
    { unfold W1, fsync_w; cbn [len].
      repeat (eapply Z.le_trans; [|apply pwrite_len]). apply Z.le_refl. }
    revert Hlen. unfold_layout. lia. }
  assert (Hout : Forall (fun bd => outside_journal (fst bd)) recs).
  { unfold recs, outside_journal. repeat constructor; cbn [fst]; unfold_layout; lia. }
  destruct (install_applies_tx_run cap stale W1 recs Hcap Hjh ltac:(rewrite Htx; unfold_layout; lia)
              Hlen1 Hrec Hout) as [n [w2 [Hrun Hsame]]].
  exists n, w2. split; [exact Hrun|].
  destruct Hsame as [_ Himg].
  rewrite Hjh in Himg. unfold reset_world in Himg. cbn [jmagic] in Himg.
  split; [|split].
  - rewrite img_jh_eq. cbn [img fsync_w pwrite_w].
    assert (E : forall x, get_le32 (img w2) x = get_le32 (img (fsync_w (pwrite_w (apply_recs W1 recs)
               JOURNAL_BASE SIZEOF_JH (jh_bytes (mkJH JOURNAL_MAGIC SIZEOF_JH))))) x).
    { intros x. apply get_le32_ext. intros k Hk. rewrite Himg. reflexivity. }
    rewrite !E. cbn [img fsync_w pwrite_w].
    rewrite !get_le32_upd_in by (unfold_layout; lia).
    replace (JOURNAL_BASE - JOURNAL_BASE) with 0 by lia.
    replace (JOURNAL_BASE + 4 - JOURNAL_BASE) with 4 by lia.
    pose proof (jh_bytes_decode (mkJH JOURNAL_MAGIC SIZEOF_JH)) as E2. unfold decode_jh in E2.
    rewrite E2. reflexivity.
  - intros p Hp. unfold block_img. cbv beta. rewrite !Himg.
    unfold recs. cbn [img fsync_w pwrite_w apply_recs].
    repeat split; upd_chain; rewrite upd_in by (unfold_layout; lia); f_equal; lia.
  - intros x Hx Hb.
    pose proof (Hb INODE_BMAP_IDX ltac:(cbn; auto)).
    pose proof (Hb DATA_BMAP_IDX ltac:(cbn; auto)).
    pose proof (Hb DATA_START_IDX ltac:(cbn; auto)).
    pose proof (Hb iblk ltac:(cbn; auto)).
    rewrite Himg. unfold recs, W1. cbn [img fsync_w pwrite_w apply_recs].
    upd_chain. reflexivity.
Qed.
(** ** What install writes, and in which order *)

Definition block_write (e : event) : Prop :=
  exists b d, e = EWrite (b * BLOCK_SIZE) BLOCK_SIZE d.

Definition order_inv (w0 : world) (s : ist) : Prop :=
  match pc s with
  | IStart => trace (iw s) = trace w0
  | IOuter _ _ | IScan _ _ _ | IApply _ _ _ | IReset _ =>
      exists bl, Forall block_write bl /\ trace (iw s) = trace w0 ++ bl
  | IDone _ =>
      trace (iw s) = trace w0 \/
      exists bl, Forall block_write bl /\
        trace (iw s) = trace w0 ++ bl ++ [EWrite JOURNAL_BASE SIZEOF_JH (jh_bytes (ijh s)); EFsync]
  | IDied | IUndef => True
  end.

Lemma order_inv_step cap stale w0 s : order_inv w0 s -> order_inv w0 (step cap stale s).
Proof.
  destruct s as [p jh w]. unfold order_inv, step; cbn [pc ijh iw].
  destruct p as [|off c|st tx c|a tx c|c|c| |]; intros H.
  - destruct (preads w JOURNAL_BASE SIZEOF_JH); [|exact I].
    destruct (_ || _); cbn [pc iw]; [left; exact H|].
    exists []. split; [constructor|]. rewrite app_nil_r. exact H.
  - destruct (_ && _); exact H.
  - destruct (tx <? _); [|exact H]. destruct (preads _ _ _); [|exact I].
    destruct (_ =? REC_COMMIT); exact H.
  - destruct (a <? tx); [|exact H]. destruct (preads _ _ _); [|exact I].
    destruct (_ =? REC_DATA); [|exact H]. destruct (_ && _); [exact I|].
    destruct (preads _ _ _); [|exact I].
    destruct H as [bl [Hbl Ht]]. cbn [pc iw pwrite_w trace].
    eexists. split; [apply Forall_app; split; [exact Hbl|constructor; [|constructor]]|].
    + eexists _, _. reflexivity.
    + rewrite Ht, <- app_assoc. reflexivity.
  - destruct H as [bl [Hbl Ht]]. cbn [pc iw ijh]. right. exists bl. split; [exact Hbl|].
    unfold fsync_w, pwrite_w; cbn [trace]. rewrite Ht, <- !app_assoc. reflexivity.
  - exact H.
  - exact I.
  - exact I.
Qed.

Lemma order_inv_run cap stale w0 n s : order_inv w0 s -> order_inv w0 (run cap stale n s).
Proof.
  revert s. induction n as [|n IH]; intros s H; [exact H|].
  rewrite run_S. apply IH, order_inv_step, H.
Qed.

(** X10: When install returns (so no data record overflowed [dr]), it either
    wrote nothing, or it wrote whole blocks (4096 bytes at a multiple of
    4096) and then, last, the 8-byte header it returns with, followed by one
    fsync. *)
Theorem install_write_order cap stale w n c :
  pc (run cap stale n (install_init w)) = IDone c ->
  trace (iw (run cap stale n (install_init w))) = trace w \/
  exists bl, Forall block_write bl /\
    trace (iw (run cap stale n (install_init w))) =
      trace w ++ bl ++
      [EWrite JOURNAL_BASE SIZEOF_JH (jh_bytes (ijh (run cap stale n (install_init w)))); EFsync].
Proof.
  intros Hd. pose proof (order_inv_run cap stale w n (install_init w) eq_refl) as H.
  unfold order_inv in H. rewrite Hd in H. exact H.
Qed.

(** The count of applied transactions, bounded by a non-negative cap. *)
Definition cap_inv (cap : Z) (s : ist) : Prop :=
  match pc s with
  | IOuter _ c | IReset c | IDone c => 0 <= c /\ (cap < 0 \/ c <= cap)
  | IScan _ _ c | IApply _ _ c => 0 <= c /\ (cap < 0 \/ c < cap)
  | IStart | IDied | IUndef => True
  end.

Lemma cap_inv_step cap stale s : cap_inv cap s -> cap_inv cap (step cap stale s).
Proof.
  destruct s as [p jh w]. unfold cap_inv, step; cbn [pc ijh iw].
  destruct p as [|off c|st tx c|a tx c|c|c| |]; intros H.
  - destruct (preads w JOURNAL_BASE SIZEOF_JH); [|exact I].
    destruct (_ || _); cbn [pc]; lia.
  - destruct ((off <? _) && _) eqn:E; cbn [pc]; [|exact H].
    apply andb_true_iff in E as [_ E]. apply orb_true_iff in E. lia.
  - destruct (tx <? _); cbn [pc]; [|lia]. destruct (preads _ _ _); [|exact I].
    destruct (_ =? REC_COMMIT); exact H.
  - destruct (a <? tx); cbn [pc]; [|lia]. destruct (preads _ _ _); [|exact I].
    destruct (_ =? REC_DATA); [|exact H]. destruct (_ && _); [exact I|].
    destruct (preads _ _ _); [exact H|exact I].
  - exact H.
  - exact H.
  - exact I.
  - exact I.
Qed.

(** X11: With a cap [max_commits >= 0], install, when it returns (so no data
    record overflowed [dr]), has applied at most [max_commits] transactions. *)
Theorem install_cap_bound cap stale w n c :
  0 <= cap -> pc (run cap stale n (install_init w)) = IDone c -> 0 <= c <= cap.
Proof.
  intros Hcap Hd.
  assert (H : cap_inv cap (run cap stale n (install_init w))).
  { assert (G : forall m s, cap_inv cap s -> cap_inv cap (run cap stale m s)).
    { induction m as [|m IH]; intros s Hs; [exact Hs|].
      rewrite run_S. apply IH, cap_inv_step, Hs. }
    apply G. exact I. }
  unfold cap_inv in H. rewrite Hd in H. lia.
Qed.

(** ** Create stays inside the journal when the record run fits *)

Lemma start_off_range w : 0 <= start_off w < 2 ^ 32.
Proof.
  unfold start_off, img_jh, decode_jh; cbn [jmagic nbytes_used].
  destruct (_ =? _); [apply get_le32_range|unfold SIZEOF_JH; lia].
Qed.

(** X12: When the four data records and the commit record fit in the journal
    after the current bytes-used, every write of a successful create lies in
    the journal region, and the header written last records bytes-used
    advanced by 16420 (4 * 4104 + 4). *)
Theorem create_within_journal name now w :
  TOTAL_BLOCKS * BLOCK_SIZE <= len w ->
  0 <= free_inode (block_img w INODE_BMAP_IDX) ->
  0 <= free_dirent (block_img w DATA_START_IDX) ->
  start_off w + 4 * SIZEOF_DR + SIZEOF_CR <= JOURNAL_BYTES ->
  exists w' appended, create_journal name now w = Ret tt w' /\
    trace w' = trace w ++ appended /\
    (forall p n d, In (EWrite p n d) appended ->
       JOURNAL_BASE <= p /\ p + n <= JOURNAL_BASE + JOURNAL_BYTES) /\
    In (EWrite JOURNAL_BASE SIZEOF_JH
          (jh_bytes (mkJH JOURNAL_MAGIC (start_off w + 4 * SIZEOF_DR + SIZEOF_CR)))) appended.
Proof.
  intros Hlen Hi Hs Hfit.
  destruct (create_journal_writes name now w Hlen Hi Hs) as [w' [Hc Ht]].
  pose proof (start_off_range w) as Hr.
  set (o := start_off w) in *.
  unfold_layout. unfold SIZEOF_DR, SIZEOF_CR, JOURNAL_BYTES in Hfit.
  rewrite !wrap32_small in Ht by (unfold SIZEOF_DR, SIZEOF_CR; lia).
  eexists w', _. split; [exact Hc|]. split; [exact Ht|]. split.
  - assert (EWrite_inj : forall p n d p' n' d',
              EWrite p n d = EWrite p' n' d' -> p = p' /\ n = n')
      by (intros * E; injection E; auto).
    intros p n d Hin.
    do 6 (destruct Hin as [Hin|Hin];
            [apply EWrite_inj in Hin as [<- <-]; lia|]).
    destruct Hin as [Hin|Hin]; [discriminate|contradiction].
  - do 5 right. left. f_equal. f_equal. f_equal. unfold SIZEOF_DR, SIZEOF_CR. lia.
Qed.

(** ** The command line: [main] *)

(** [strcmp(a, b) == 0] on C strings whose bytes are the lists (a 0 byte
    ends a string, as does the end of the list). *)
Fixpoint streq (a b : list Z) : bool :=
  match a, b with
  | [], [] => true
  | [], c :: _ | c :: _, [] => c =? 0
  | c :: a', d :: b' => (c =? d) && (if c =? 0 then true else streq a' b')
  end.

Definition str_create : list Z := [99; 114; 101; 97; 116; 101].
Definition str_install : list Z := [105; 110; 115; 116; 97; 108; 108].

(** [main(argc, argv)]: the exit status and the final image; [argv] with
    [argv[0]] first, [now] the value of [time(NULL)] for create, [fuel] the
    steps granted to install ([None]: install did not return within them,
    or a data record overflowed [dr] and the behaviour is undefined).
    [die] exits with [EXIT_FAILURE]; the [printf]s are not modelled. *)
Definition main (argv : list (list Z)) (now : Z) (fuel : nat) (w : world)
    : option (Z * world) :=
  match argv with
  | [_; a1; a2] =>
      if streq a1 str_create then
        match create_journal a2 now w with
        | Ret _ w' => Some (0, w')
        | Died w' => Some (1, w')
        end
      else Some (1, w)
  | [_; a1] =>
      if streq a1 str_install then
        let s := install_journal (-1) fuel w in
        match pc s with
        | IDone _ => Some (0, iw s)
        | IDied => Some (1, iw s)
        | _ => None
        end
      else Some (1, w)
  | _ => Some (1, w)
  end.

(** X13: Any command line other than [create NAME] or [install] prints the usage
    and exits with status 1 without touching the image. *)
Theorem main_usage argv now fuel w :
  (forall p a n, argv = [p; a; n] -> streq a str_create = false) ->
  (forall p a, argv = [p; a] -> streq a str_install = false) ->
  main argv now fuel w = Some (1, w).
Proof.
  intros H3 H2. unfold main.
  destruct argv as [|p [|a [|n [|x r]]]]; try reflexivity.
  - rewrite (H2 p a eq_refl). reflexivity.
  - rewrite (H3 p a n eq_refl). reflexivity.
Qed.

Lemma create_never_dies name now w :
  TOTAL_BLOCKS * BLOCK_SIZE <= len w ->
  create_journal name now w = Ret tt (create_w name now w).
Proof.
  intros Hlen.
  destruct (Z_le_gt_dec 0 (free_inode (block_img w INODE_BMAP_IDX))) as [Hi|Hi];
  [destruct (Z_le_gt_dec 0 (free_dirent (block_img w DATA_START_IDX))) as [Hs|Hs]|].
  - destruct (create_journal_writes name now w Hlen Hi Hs) as [w' [Hc _]].
    unfold create_w. rewrite Hc. reflexivity.
  - unfold create_w, create_journal, bind, read_block, sys_pread.
    rewrite !preads_true by (unfold_layout; lia).
    fold (block_img w INODE_BMAP_IDX) (block_img w DATA_START_IDX).
    replace (free_dirent (block_img w DATA_START_IDX) <? 0) with true by lia.
    rewrite orb_true_r. reflexivity.
  - unfold create_w, create_journal, bind, read_block, sys_pread.
    rewrite !preads_true by (unfold_layout; lia).
    fold (block_img w INODE_BMAP_IDX) (block_img w DATA_START_IDX).
    replace (free_inode (block_img w INODE_BMAP_IDX) <? 0) with true by lia.
    reflexivity.
Qed.

(** X14: [journal create NAME] on an image of the full size always exits with
    status 0, leaving the image create produced, also when no inode or
    directory slot was free and nothing was logged. *)
Theorem main_create_exit0 prog a name now fuel w :
  streq a str_create = true ->
  TOTAL_BLOCKS * BLOCK_SIZE <= len w ->
  main [prog; a; name] now fuel w = Some (0, create_w name now w).
Proof.
  intros Ha Hlen. unfold main. rewrite Ha, create_never_dies by exact Hlen.
  reflexivity.
Qed.

(** ** Instances of the properties above *)

(** A journal holding one committed transaction that writes block 30 with
    bytes 7. *)
Definition tx_world : world :=
  let w := pwrite_w zero_world (JOURNAL_BASE + SIZEOF_JH) SIZEOF_DR
             (data_record_bytes 30 (fun _ => 7)) in
  let w := pwrite_w w (JOURNAL_BASE + SIZEOF_JH + SIZEOF_DR) SIZEOF_CR commit_record_bytes in
  pwrite_w w JOURNAL_BASE SIZEOF_JH
    (jh_bytes (mkJH JOURNAL_MAGIC (SIZEOF_JH + SIZEOF_DR + SIZEOF_CR))).

Definition tx_recs : list (Z * buf) := [(30, fun _ => 7)].

Lemma set_bitmap_spec_witness :
  0 <= 5 /\ 0 <= 13 /\
  bit_clear (set_bitmap zero_buf 5) 13 = bit_clear zero_buf 13 && negb (13 =? 5).
Proof.
  split; [lia|]. split; [lia|]. apply set_bitmap_spec; lia.
Defined.

Lemma free_inode_after_set_witness :
  0 <= free_inode (block_img zero_world INODE_BMAP_IDX) /\
  (free_inode (set_bitmap (block_img zero_world INODE_BMAP_IDX)
                 (free_inode (block_img zero_world INODE_BMAP_IDX))) = -1 \/
   free_inode (block_img zero_world INODE_BMAP_IDX) <
   free_inode (set_bitmap (block_img zero_world INODE_BMAP_IDX)
                 (free_inode (block_img zero_world INODE_BMAP_IDX)))).
Proof.
  assert (H : 0 <= free_inode (block_img zero_world INODE_BMAP_IDX)) by (vm_compute; discriminate).
  split; [exact H|]. apply free_inode_after_set, H.
Defined.

Lemma install_applies_tx_witness :
  recs_at tx_world SIZEOF_JH tx_recs /\
  exists n w', run (-1) zero_buf n (install_init tx_world) =
                 mkI (IDone 1) (mkJH JOURNAL_MAGIC SIZEOF_JH) w' /\
               same_img w' (reset_world (img_jh tx_world) (apply_recs tx_world tx_recs)).
Proof.
  assert (Hrec : recs_at tx_world SIZEOF_JH tx_recs).
  { cbn [recs_at tx_recs]. split; [vm_compute; reflexivity|].
    split; [vm_compute; reflexivity|]. split; [vm_compute; reflexivity|]. split.
    - intros i Hi. unfold tx_world, pwrite_w. cbn [img].
      rewrite upd_out by (unfold_layout; lia). rewrite upd_out by (unfold_layout; lia).
      rewrite upd_in by (unfold_layout; lia).
      replace (JOURNAL_BASE + SIZEOF_JH + 8 + i - (JOURNAL_BASE + SIZEOF_JH)) with (8 + i) by lia.
      destruct (data_record_bytes_decode 30 (fun _ => 7)) as [_ [_ [_ D]]].
      apply D. exact Hi.
    - split; vm_compute; reflexivity. }
  split; [exact Hrec|].
  apply install_applies_tx.
  - discriminate.
  - vm_compute. reflexivity.
  - vm_compute. discriminate.
  - vm_compute. discriminate.
  - exact Hrec.
  - constructor; [|constructor]. right. unfold_layout. cbn. lia.
Defined.

Lemma create_then_install_witness :
  -1 <> 0 /\ TOTAL_BLOCKS * BLOCK_SIZE <= len zero_world /\
  start_off zero_world = SIZEOF_JH /\
  0 <= free_inode (block_img zero_world INODE_BMAP_IDX) /\
  0 <= free_dirent (block_img zero_world DATA_START_IDX) /\
  exists n w2,
    run (-1) zero_buf n (install_init (create_w [97] 0 zero_world)) =
      mkI (IDone 1) (mkJH JOURNAL_MAGIC SIZEOF_JH) w2 /\
    img_jh w2 = mkJH JOURNAL_MAGIC SIZEOF_JH.
Proof.
  assert (H1 : -1 <> 0) by discriminate.
  assert (H2 : TOTAL_BLOCKS * BLOCK_SIZE <= len zero_world) by (vm_compute; discriminate).
  assert (H3 : start_off zero_world = SIZEOF_JH) by (vm_compute; reflexivity).
  assert (H4 : 0 <= free_inode (block_img zero_world INODE_BMAP_IDX)) by (vm_compute; discriminate).
  assert (H5 : 0 <= free_dirent (block_img zero_world DATA_START_IDX)) by (vm_compute; discriminate).
  do 5 (split; [assumption|]).
  destruct (create_then_install (-1) zero_buf [97] 0 zero_world H1 H2 H3 H4 H5)
    as [n [w2 [Hr [Hj _]]]].
  exists n, w2. split; assumption.
Defined.

Lemma install_write_order_witness :
  pc (run (-1) zero_buf 200 (install_init (create_w [97] 0 zero_world))) = IDone 1 /\
  (trace (iw (run (-1) zero_buf 200 (install_init (create_w [97] 0 zero_world)))) =
     trace (create_w [97] 0 zero_world) \/
   exists bl, Forall block_write bl /\
     trace (iw (run (-1) zero_buf 200 (install_init (create_w [97] 0 zero_world)))) =
       trace (create_w [97] 0 zero_world) ++ bl ++
       [EWrite JOURNAL_BASE SIZEOF_JH
          (jh_bytes (ijh (run (-1) zero_buf 200 (install_init (create_w [97] 0 zero_world)))));
        EFsync]).
Proof.
  assert (H : pc (run (-1) zero_buf 200 (install_init (create_w [97] 0 zero_world))) = IDone 1)
    by (vm_compute; reflexivity).
  split; [exact H|]. exact (install_write_order _ _ _ _ _ H).
Defined.

Lemma install_cap_bound_witness :
  0 <= 1 /\
  pc (run 1 zero_buf 200 (install_init (create_w [97] 0 zero_world))) = IDone 1 /\
  0 <= 1 <= 1.
Proof.
  assert (H : pc (run 1 zero_buf 200 (install_init (create_w [97] 0 zero_world))) = IDone 1)
    by (vm_compute; reflexivity).
  split; [lia|]. split; [exact H|]. exact (install_cap_bound 1 _ _ _ _ ltac:(lia) H).
Defined.

Lemma create_within_journal_witness :
  TOTAL_BLOCKS * BLOCK_SIZE <= len zero_world /\
  0 <= free_inode (block_img zero_world INODE_BMAP_IDX) /\
  0 <= free_dirent (block_img zero_world DATA_START_IDX) /\
  start_off zero_world + 4 * SIZEOF_DR + SIZEOF_CR <= JOURNAL_BYTES /\
  exists w' appended, create_journal [97] 0 zero_world = Ret tt w' /\
    trace w' = trace zero_world ++ appended.
Proof.
  assert (H1 : TOTAL_BLOCKS * BLOCK_SIZE <= len zero_world) by (vm_compute; discriminate).
  assert (H2 : 0 <= free_inode (block_img zero_world INODE_BMAP_IDX)) by (vm_compute; discriminate).
  assert (H3 : 0 <= free_dirent (block_img zero_world DATA_START_IDX)) by (vm_compute; discriminate).
  assert (H4 : start_off zero_world + 4 * SIZEOF_DR + SIZEOF_CR <= JOURNAL_BYTES)
    by (vm_compute; discriminate).
  do 4 (split; [assumption|]).
  destruct (create_within_journal [97] 0 zero_world H1 H2 H3 H4) as [w' [ap [Hc [Ht _]]]].
  exists w', ap. split; assumption.
Defined.

Lemma main_usage_witness :
  (forall p a n, [[106]; str_install; [120]] = [p; a; n] -> streq a str_create = false) /\
  (forall p a, [[106]; str_install; [120]] = [p; a] -> streq a str_install = false) /\
  main [[106]; str_install; [120]] 0 0 zero_world = Some (1, zero_world).
Proof.
  assert (H1 : forall p a n, [[106]; str_install; [120]] = [p; a; n] ->
                             streq a str_create = false).
  { intros p a n E. injection E. intros _ <- _. reflexivity. }
  assert (H2 : forall p a, [[106]; str_install; [120]] = [p; a] ->
                           streq a str_install = false) by discriminate.
  split; [exact H1|]. split; [exact H2|]. exact (main_usage _ 0 0 zero_world H1 H2).
Defined.

Lemma main_create_exit0_witness :
  streq str_create str_create = true /\
  TOTAL_BLOCKS * BLOCK_SIZE <= len zero_world /\
  main [[106]; str_create; [97]] 0 0 zero_world = Some (0, create_w [97] 0 zero_world).
Proof.
  assert (H1 : streq str_create str_create = true) by reflexivity.
  assert (H2 : TOTAL_BLOCKS * BLOCK_SIZE <= len zero_world) by (vm_compute; discriminate).
  split; [exact H1|]. split; [exact H2|]. exact (main_create_exit0 [106] _ [97] 0 0 zero_world H1 H2).
Defined.
